(** * The MongoDB provisioning connector (plugin-mongodb-new-connector2.js)

    A shallow embedding of the eight plugin methods of
    [src/scimgateway/lib/plugin-mongodb-new-connector2.js]
    (getUsers, createUser, deleteUser, modifyUser, getGroups, createGroup,
    deleteGroup, modifyGroup) together with the two collaborators they call:
    the attribute mapper ([scimgateway.endpointMapper]) and the document
    store (the Prisma client), and the properties of the membership logic,
    the filter translation and the error handling that the specification
    states about them. *)

From Stdlib Require Import List String Ascii Bool Arith ZArith Lia.
Import ListNotations.
Local Open Scope string_scope.
Local Open Scope list_scope.

(* ================================================================= *)
(** ** JavaScript values and objects *)

(** The primitive values that travel through the connector. *)
Inductive value : Type :=
| VUndef
| VStr (s : string)
| VBool (b : bool)
| VNum (n : Z).

(** Strict equality [===] on primitives. *)
Definition value_eqb (a b : value) : bool :=
  match a, b with
  | VUndef, VUndef => true
  | VStr s, VStr t => String.eqb s t
  | VBool x, VBool y => Bool.eqb x y
  | VNum n, VNum m => Z.eqb n m
  | _, _ => false
  end.

(** A plain object in dot notation: property names with their values. *)
Definition obj : Type := list (string * value).

Fixpoint lookup (o : obj) (k : string) : option value :=
  match o with
  | [] => None
  | (k', v) :: o' => if String.eqb k' k then Some v else lookup o' k
  end.

(** [o[k]]: a missing property reads as [undefined]. *)
Definition get (o : obj) (k : string) : value :=
  match lookup o k with
  | Some v => v
  | None => VUndef
  end.

(** [o[k] = v]. *)
Fixpoint set (o : obj) (k : string) (v : value) : obj :=
  match o with
  | [] => [(k, v)]
  | (k', v') :: o' =>
      if String.eqb k' k then (k', v) :: o' else (k', v') :: set o' k v
  end.

(** [delete o[k]]. *)
Fixpoint del (o : obj) (k : string) : obj :=
  match o with
  | [] => []
  | (k', v') :: o' =>
      if String.eqb k' k then del o' k else (k', v') :: del o' k
  end.

(** [{...a, ...b}]. *)
Definition spread (a b : obj) : obj :=
  fold_left (fun acc kv => set acc (fst kv) (snd kv)) b a.

(** Truthiness of an optional string ([undefined] and [""] are falsy). *)
Definition truthy (o : option string) : bool :=
  match o with
  | Some s => negb (String.eqb s "")
  | None => false
  end.

(** [o === s] for an optional string [o] and a string literal [s]. *)
Definition is_str (o : option string) (s : string) : bool :=
  match o with
  | Some t => String.eqb t s
  | None => false
  end.

(** [names.includes(o)]. *)
Definition includes_opt (names : list string) (o : option string) : bool :=
  existsb (is_str o) names.

(** [arr.includes(x)] on an array of strings. *)
Definition includes (l : list string) (x : string) : bool :=
  existsb (String.eqb x) l.

(** Interpolation [${o}] inside a template string. *)
Definition show (o : option string) : string :=
  match o with
  | Some s => s
  | None => "undefined"
  end.

(* ================================================================= *)
(** ** The attribute mapper *)

Inductive attr_type : Type := TString | TBoolean | TNumber.

(** One entry of [config.map.<kind>]: the internal field, the external
    attribute it maps to, and the declared type. *)
Record rule : Type := mkRule {
  field : string;
  mapTo : string;
  rtype : attr_type
}.

(** [endpoint.map.group] of config/plugin-mongodb-new-connector2.json. *)
Definition config_map_group : list rule :=
  [ mkRule "id" "id" TString;
    mkRule "_id" "id" TString;
    mkRule "name" "displayName" TString ].

(** [endpoint.map.user] of config/plugin-mongodb-new-connector2.json. *)
Definition config_map_user : list rule :=
  [ mkRule "id" "id" TString;
    mkRule "_id" "id" TString;
    mkRule "username" "userName" TString;
    mkRule "active" "active" TBoolean;
    mkRule "password" "password" TString;
    mkRule "givenName" "name.givenName" TString;
    mkRule "familyName" "name.familyName" TString;
    mkRule "displayName" "name.formatted" TString;
    mkRule "email" "attributes.email.value" TString;
    mkRule "homePhone" "phoneNumbers.home.value" TString;
    mkRule "postalCode" "addresses.work.postalCode" TString;
    mkRule "streetAddress" "addresses.work.streetAddress" TString;
    mkRule "telephoneNumber" "attributes.telephoneNumber.value" TString ].

Definition digit (c : ascii) : option Z :=
  let n := Z.of_nat (nat_of_ascii c) in
  if ((48 <=? n) && (n <=? 57))%Z then Some (n - 48)%Z else None.

Fixpoint parse_digits (s : string) (acc : Z) : option Z :=
  match s with
  | EmptyString => Some acc
  | String c s' =>
      match digit c with
      | Some d => parse_digits s' (10 * acc + d)%Z
      | None => None
      end
  end.

Definition parse_number (s : string) : option Z :=
  match s with
  | EmptyString => None
  | _ => parse_digits s 0%Z
  end.

(** Modelled from the spec: the type coercion of the mapper's outbound
    path, whose code ([scimgateway.endpointMapper]) is not part of the
    sources: string pass-through, boolean pass-through, numeric parse;
    [None] is the coercion failure. *)
Definition coerce (t : attr_type) (v : value) : option value :=
  match t with
  | TString => Some v
  | TBoolean => Some v
  | TNumber =>
      match v with
      | VNum _ => Some v
      | VStr s => option_map VNum (parse_number s)
      | _ => None
      end
  end.

(** Modelled from the spec: the outbound path (external to internal) of
    [scimgateway.endpointMapper], which is not part of the sources: for
    each rule whose external name is present in the input, the internal
    field is set to the coerced value; attributes without a rule are
    dropped. *)
Fixpoint outbound (rules : list rule) (o : obj) (acc : obj) : option obj :=
  match rules with
  | [] => Some acc
  | r :: rs =>
      match lookup o (mapTo r) with
      | None => outbound rs o acc
      | Some v =>
          match coerce (rtype r) v with
          | None => None
          | Some v' => outbound rs o (set acc (field r) v')
          end
      end
  end.

(** Modelled from the spec: the inbound path (internal to external) of
    [scimgateway.endpointMapper], which is not part of the sources: for
    each rule, the internal field is read and assigned to the external
    name; a missing internal value yields a missing external attribute,
    and fields without a rule are dropped. *)
Fixpoint inbound (rules : list rule) (doc : obj) (acc : obj) : obj :=
  match rules with
  | [] => acc
  | r :: rs =>
      match lookup doc (field r) with
      | None | Some VUndef => inbound rs doc acc
      | Some v => inbound rs doc (set acc (mapTo r) v)
      end
  end.

Inductive direction : Type := Inbound | Outbound.

(** [scimgateway.endpointMapper(direction, o, rules).then(res => res[0])];
    [None] stands for the mapper's type error. *)
Definition endpointMapper (d : direction) (o : obj) (rules : list rule)
  : option obj :=
  match d with
  | Outbound => outbound rules o []
  | Inbound => Some (inbound rules o [])
  end.

(* ================================================================= *)
(** ** The document store *)

(** The store is the Prisma client, which is not part of the sources; it is
    modelled from the Store interface of the specification: [findMany],
    [findUnique]/[findFirst], [create], [update] and [delete] over two
    collections, with a [where] predicate, and errors that tell a
    uniqueness violation (P2002) and a missing record (P2025) from other
    failures. *)

(** A user document: its key and its remaining columns, named by the
    internal field names of [config_map_user]. *)
Record user_row : Type := mkUser {
  uid : string;
  ufields : obj
}.

(** A group document: key, remaining columns, and the member list. *)
Record group_row : Type := mkGroup {
  gid : string;
  gfields : obj;
  members : list string
}.

Record store : Type := mkStore {
  users : list user_row;
  groups : list group_row
}.

(** The scalar columns of a document as the mapper and the [where]
    predicates see them.  The key is the document's [_id], which the
    client exposes as [id]; the rule tables name both. *)
Definition user_doc (u : user_row) : obj :=
  ("id", VStr (uid u)) :: ("_id", VStr (uid u)) :: ufields u.

Definition group_doc (g : group_row) : obj :=
  ("id", VStr (gid g)) :: ("_id", VStr (gid g)) :: gfields g.

(** The three shapes of [where] argument the connector builds. *)
Inductive where_clause : Type :=
| WFields (o : obj)            (* { field: value, ... } *)
| WMembersHas (x : value)      (* { members: { has: x } } *)
| WIdIn (xs : list string).    (* { id: { in: xs } } *)

(** Modelled from the spec: the Store's where-predicate (the Prisma client
    is not part of the sources).  Every listed field must equal the
    document's; a field whose value is [undefined] places no constraint. *)
Definition fields_match (o doc : obj) : bool :=
  forallb (fun kv =>
             match snd kv with
             | VUndef => true
             | v => value_eqb (get doc (fst kv)) v
             end) o.

(** [where: undefined] (here [None]) selects every document. *)
Definition user_matches (w : option where_clause) (u : user_row) : bool :=
  match w with
  | None => true
  | Some (WFields o) => fields_match o (user_doc u)
  | Some (WMembersHas _) => false
  | Some (WIdIn xs) => includes xs (uid u)
  end.

Definition group_matches (w : option where_clause) (g : group_row) : bool :=
  match w with
  | None => true
  | Some (WFields o) => fields_match o (group_doc g)
  | Some (WMembersHas x) => existsb (fun m => value_eqb (VStr m) x) (members g)
  | Some (WIdIn xs) => includes xs (gid g)
  end.

(** What the driver reports when a call is rejected. *)
Record store_error : Type := mkStoreError {
  code : string;
  meta : string;       (* JSON.stringify(err.meta) *)
  emessage : string    (* err.message *)
}.

Definition P2002 : store_error :=
  mkStoreError "P2002" "{target:id}" "Unique constraint failed".

(** The same code, raised for the unique [username] of a user. *)
Definition P2002_username : store_error :=
  mkStoreError "P2002" "{target:username}" "Unique constraint failed".

Definition P2025 : store_error :=
  mkStoreError "P2025" "{cause:Record not found}" "Record not found".

(** What the environment contributes to a mutating call: the key the store
    generates for a new document, and a fault to inject, if any. *)
Record env : Type := mkEnv {
  fresh_id : string;
  fault : option store_error
}.

Definition no_fault : env := mkEnv "" None.

(** Replace, or remove, the first element that satisfies [p]. *)
Fixpoint update_first {A : Type} (p : A -> bool) (f : A -> A) (l : list A)
  : option (list A) :=
  match l with
  | [] => None
  | x :: l' =>
      if p x then Some (f x :: l')
      else option_map (cons x) (update_first p f l')
  end.

Fixpoint delete_first {A : Type} (p : A -> bool) (l : list A)
  : option (list A) :=
  match l with
  | [] => None
  | x :: l' =>
      if p x then Some l' else option_map (cons x) (delete_first p l')
  end.

(** The effect of [groupSchema.update({where, data})] on the documents:
    the scalar columns of [data] are written, and [members] when given. *)
Definition write_group (data : obj) (ms : option (list string))
  (g : group_row) : group_row :=
  mkGroup (gid g) (spread (gfields g) data)
          (match ms with Some l => l | None => members g end).

Definition update_group (w : where_clause) (data : obj)
  (ms : option (list string)) (st : store) : option store :=
  option_map (mkStore (users st))
             (update_first (group_matches (Some w)) (write_group data ms)
                           (groups st)).

Definition write_user (data : obj) (u : user_row) : user_row :=
  mkUser (uid u) (spread (ufields u) data).

Definition update_user (w : where_clause) (data : obj) (st : store)
  : option store :=
  option_map (fun us => mkStore us (groups st))
             (update_first (user_matches (Some w)) (write_user data)
                           (users st)).

(** An update that was issued but whose completion nobody waits for. *)
Record pending_update : Type := mkPending {
  upd_where : where_clause;
  upd_members : list string
}.

(** A pending update takes effect; one whose document is gone is lost. *)
Definition land (st : store) (p : pending_update) : store :=
  match update_group (upd_where p) [] (Some (upd_members p)) st with
  | Some st' => st'
  | None => st
  end.

Definition land_all (ps : list pending_update) (st : store) : store :=
  fold_left land ps st.

(* ================================================================= *)
(** ** Effects: the store, the calls made on it, and failures *)

Inductive coll : Type := Users | Groups.

(** The calls made on the store, in order. *)
Inductive call : Type :=
| CFindMany (c : coll) (w : option where_clause)
| CFindUnique (c : coll) (w : where_clause)
| CFindFirst (c : coll) (w : where_clause)
| CCreate (c : coll) (data : obj)
| CUpdate (c : coll) (w : where_clause)
| CDelete (c : coll) (w : where_clause).

Definition is_mutation (c : call) : bool :=
  match c with
  | CCreate _ _ | CUpdate _ _ | CDelete _ _ => true
  | _ => false
  end.

(** What an operation runs in and leaves behind: the documents as the
    awaited calls have left them, the calls made so far, and the updates
    that were started without being awaited.  A pending update may land
    at any later moment ([land]); no operation waits for it. *)
Record world : Type := mkWorld {
  db : store;
  log : list call;
  pending : list pending_update
}.

Definition logged (c : call) (w : world) : world :=
  mkWorld (db w) (log w ++ [c]) (pending w).

Definition with_db (st : store) (w : world) : world :=
  mkWorld st (log w) (pending w).

(** A computation that may throw an [E] and keeps what it did before. *)
Definition M (E A : Type) : Type := world -> (E + A) * world.

Definition ret {E A : Type} (a : A) : M E A := fun w => (inr a, w).

Definition throw {E A : Type} (e : E) : M E A := fun w => (inl e, w).

Definition bind {E A B : Type} (c : M E A) (k : A -> M E B) : M E B :=
  fun w =>
    match c w with
    | (inl e, w') => (inl e, w')
    | (inr a, w') => k a w'
    end.

(** [c.catch(err => { throw h(err) })]. *)
Definition catch {E E' A : Type} (c : M E A) (h : E -> E') : M E' A :=
  fun w =>
    match c w with
    | (inl e, w') => (inl (h e), w')
    | (inr a, w') => (inr a, w')
    end.

Declare Scope conn_scope.
Delimit Scope conn_scope with conn.
Notation "x <- c ;; k" := (bind c (fun x => k))
  (at level 61, c at next level, right associativity) : conn_scope.
Notation "c ;;; k" := (bind c (fun _ => k))
  (at level 61, right associativity) : conn_scope.
Local Open Scope conn_scope.

(** [for (const i in l) { ... await f(l[i]) ... }], collecting results;
    also [Promise.all(l.map(f))] and [l.forEach(f)], whose callbacks run
    in the order of the array. *)
Fixpoint for_each {E A B : Type} (f : A -> M E B) (l : list A)
  : M E (list B) :=
  match l with
  | [] => ret []
  | x :: l' => y <- f x ;; ys <- for_each f l' ;; ret (y :: ys)
  end.

(** A loop that threads a local variable through its iterations. *)
Fixpoint for_fold {E A S : Type} (f : S -> A -> M E S) (s : S) (l : list A)
  : M E S :=
  match l with
  | [] => ret s
  | x :: l' => s' <- f s x ;; for_fold f s' l'
  end.

(** *** Store calls

    Every call is logged.  A read returns what the documents hold; a
    mutating call that is awaited takes effect at once, unless the
    environment injects a fault or the store itself rejects it.  The
    client's [$disconnect] touches no document and is left out. *)

Definition userSchema_findMany {E : Type} (w : option where_clause)
  : M E (list user_row) :=
  fun wd => (inr (filter (user_matches w) (users (db wd))),
             logged (CFindMany Users w) wd).

Definition groupSchema_findMany {E : Type} (w : option where_clause)
  : M E (list group_row) :=
  fun wd => (inr (filter (group_matches w) (groups (db wd))),
             logged (CFindMany Groups w) wd).

Definition userSchema_findUnique {E : Type} (w : where_clause)
  : M E (option user_row) :=
  fun wd => (inr (find (user_matches (Some w)) (users (db wd))),
             logged (CFindUnique Users w) wd).

Definition userSchema_findFirst {E : Type} (w : where_clause)
  : M E (option user_row) :=
  fun wd => (inr (find (user_matches (Some w)) (users (db wd))),
             logged (CFindFirst Users w) wd).

Definition groupSchema_findUnique {E : Type} (w : where_clause)
  : M E (option group_row) :=
  fun wd => (inr (find (group_matches (Some w)) (groups (db wd))),
             logged (CFindUnique Groups w) wd).

(** The key of a new document: the one in the payload, else generated. *)
Definition new_key (data : obj) (e : env) : string :=
  match get data "id" with
  | VStr s => s
  | _ => fresh_id e
  end.

(** Modelled from the spec: the Store rejects a duplicate on create.  The
    connector reads users with [findUnique] on [username], so the store
    keeps that column unique next to the key: a stored user already
    carries the [username] of the payload. *)
Definition name_taken (data : obj) (us : list user_row) : bool :=
  match get data "username" with
  | VUndef => false
  | v => existsb (fun u => value_eqb (get (user_doc u) "username") v) us
  end.

Definition userSchema_create (data : obj) (e : env)
  : M store_error user_row :=
  fun wd =>
    let wd1 := logged (CCreate Users data) wd in
    match fault e with
    | Some err => (inl err, wd1)
    | None =>
        let k := new_key data e in
        if includes (map uid (users (db wd))) k then (inl P2002, wd1)
        else if name_taken data (users (db wd)) then (inl P2002_username, wd1)
        else
          let row := mkUser k data in
          (inr row,
           with_db (mkStore (users (db wd) ++ [row]) (groups (db wd))) wd1)
    end.

Definition groupSchema_create (data : obj) (ms : list string) (e : env)
  : M store_error group_row :=
  fun wd =>
    let wd1 := logged (CCreate Groups data) wd in
    match fault e with
    | Some err => (inl err, wd1)
    | None =>
        let k := new_key data e in
        if includes (map gid (groups (db wd))) k then (inl P2002, wd1)
        else
          let row := mkGroup k data ms in
          (inr row,
           with_db (mkStore (users (db wd)) (groups (db wd) ++ [row])) wd1)
    end.

(** Modelled from the spec: the Store rejects an update in the same way
    when it would give the document it addresses the [username] of
    another stored user. *)
Definition name_clash (w : where_clause) (data : obj) (us : list user_row)
  : bool :=
  match find (user_matches (Some w)) us with
  | Some target =>
      name_taken data
        (filter (fun u => negb (String.eqb (uid u) (uid target))) us)
  | None => false
  end.

Definition userSchema_update (w : where_clause) (data : obj) (e : env)
  : M store_error unit :=
  fun wd =>
    let wd1 := logged (CUpdate Users w) wd in
    match fault e with
    | Some err => (inl err, wd1)
    | None =>
        if name_clash w data (users (db wd)) then (inl P2002_username, wd1)
        else
          match update_user w data (db wd) with
          | Some st => (inr tt, with_db st wd1)
          | None => (inl P2025, wd1)
          end
    end.

Definition groupSchema_update (w : where_clause) (data : obj)
  (ms : option (list string)) (e : env) : M store_error unit :=
  fun wd =>
    let wd1 := logged (CUpdate Groups w) wd in
    match fault e with
    | Some err => (inl err, wd1)
    | None =>
        match update_group w data ms (db wd) with
        | Some st => (inr tt, with_db st wd1)
        | None => (inl P2025, wd1)
        end
    end.

(** [groupSchema.update(...)] started inside a callback whose promise is
    dropped: the call is issued, its effect is left pending. *)
Definition groupSchema_update_unawaited {E : Type} (w : where_clause)
  (ms : list string) : M E unit :=
  fun wd =>
    (inr tt,
     mkWorld (db wd) (log wd ++ [CUpdate Groups w])
             (pending wd ++ [mkPending w ms])).

Definition userSchema_delete (w : where_clause) (e : env)
  : M store_error unit :=
  fun wd =>
    let wd1 := logged (CDelete Users w) wd in
    match fault e with
    | Some err => (inl err, wd1)
    | None =>
        match delete_first (user_matches (Some w)) (users (db wd)) with
        | Some us => (inr tt, with_db (mkStore us (groups (db wd))) wd1)
        | None => (inl P2025, wd1)
        end
    end.

Definition groupSchema_delete (w : where_clause) (e : env)
  : M store_error unit :=
  fun wd =>
    let wd1 := logged (CDelete Groups w) wd in
    match fault e with
    | Some err => (inl err, wd1)
    | None =>
        match delete_first (group_matches (Some w)) (groups (db wd)) with
        | Some gs => (inr tt, with_db (mkStore (users (db wd)) gs) wd1)
        | None => (inl P2025, wd1)
        end
    end.

(* ================================================================= *)
(** ** Errors and results *)

(** The errors of the connector, one constructor per kind of [throw] in
    the plugin; [message] is the text of the [Error] that is thrown. *)
Inductive error : Type :=
| UnsupportedFilter (msg : string)
| LogicError (msg : string)
| NotFound (kind id : string)
| MemberNotFound (id : string)
| DuplicateKey (meta : string)
| FieldError (meta msg : string)
| StoreFault (msg : string)
| MappingTypeError.

Definition message (e : error) : string :=
  match e with
  | UnsupportedFilter msg => msg
  | LogicError msg => msg
  | NotFound kind id => kind ++ " " ++ id ++ " not found"
  | MemberNotFound id => "User " ++ id ++ " not found"
  | DuplicateKey meta => "Duplicate key at " ++ meta
  | FieldError meta msg => "Error at field: " ++ meta ++ ": " ++ msg
  | StoreFault msg => msg
  | MappingTypeError => "mapping type error"
  end.

(** How a plugin method ends: it resolves, it throws before its [try], or
    its failure is caught and handed to [scimgateway.formatError]. *)
Inductive outcome (A : Type) : Type :=
| Resolved (a : A)
| Thrown (e : error)
| Formatted (action : string) (e : error).

Arguments Resolved {A} a.
Arguments Thrown {A} e.
Arguments Formatted {A} action e.

(** Modelled from the spec: [scimgateway.formatError], which is not part
    of the sources: the failure is wrapped with the operation name and
    surfaced as a single error. *)
Definition formatError {A : Type} (action : string) (e : error) : outcome A :=
  Formatted action e.

(** [try { return await new Promise(... main().then(resolve).catch(reject)) }
     catch (err) { scimgateway.formatError(action, err) }]. *)
Definition run_main {A : Type} (action : string) (main : M error A)
  : world -> outcome A * world :=
  fun w =>
    match main w with
    | (inl e, w') => (formatError action e, w')
    | (inr a, w') => (Resolved a, w')
    end.

(** [await scimgateway.endpointMapper(d, o, rules).then(res => res[0])]. *)
Definition mapper (d : direction) (o : obj) (rules : list rule)
  : M error obj :=
  match endpointMapper d o rules with
  | Some res => ret res
  | None => throw MappingTypeError
  end.

(* ================================================================= *)
(** ** The plugin methods *)

(** The [getObj] argument of the read methods. *)
Record getObj : Type := mkGetObj {
  attribute : option string;
  operator : option string;
  fvalue : value;                (* getObj.value *)
  rawFilter : option string
}.

(** [{ value, display }]. *)
Record ref : Type := mkRef {
  rvalue : value;
  display : value
}.

(** [{ ...scimUser, groups }]. *)
Record user_resource : Type := mkUserResource {
  user_attrs : obj;
  res_groups : list ref
}.

(** [{ ...scimGroup, members }]. *)
Record group_resource : Type := mkGroupResource {
  group_attrs : obj;
  res_members : list ref
}.

(** *** getUsers *)

(** The "mandatory if-else logic" of getUsers; [inr None] would be a
    [filter] left [undefined]. *)
Definition getUsers_filter (g : getObj) : error + option obj :=
  if truthy (operator g) then
    if is_str (operator g) "eq"
       && includes_opt ["id"; "userName"; "externalId"] (attribute g)
    then
      match endpointMapper Outbound [("userName", fvalue g)] config_map_user
      with
      | Some res => inr (Some res)
      | None => inl MappingTypeError
      end
    else if is_str (operator g) "eq" && is_str (attribute g) "group.value"
    then
      inl (UnsupportedFilter
             ("getUsers error: not supporting groups member of user filtering: "
                ++ show (rawFilter g)))
    else
      inl (UnsupportedFilter
             ("getUsers error: not supporting simpel filtering: "
                ++ show (rawFilter g)))
  else if truthy (rawFilter g) then
    inl (UnsupportedFilter
           ("getUsers not error: supporting advanced filtering: "
              ++ show (rawFilter g)))
  else inr (Some []).

(** The membership query of getUsers and deleteUser:
    [groupSchema.findMany({ where: { members: { has: id } } })]. *)
Definition listGroupsFor {E : Type} (id : value) : M E (list group_row) :=
  groupSchema_findMany (Some (WMembersHas id)).

Definition group_ref (group : group_row) : M error ref :=
  formattedGroup <- mapper Inbound (group_doc group) config_map_group ;;
  ret (mkRef (get formattedGroup "id") (get formattedGroup "displayName")).

Definition getUsers_row (row : user_row) : M error user_resource :=
  scimUser <- mapper Inbound (user_doc row) config_map_user ;;
  groups <- listGroupsFor (get scimUser "id") ;;
  groupsList <- for_each group_ref groups ;;
  let scimUser' := set scimUser "id" (get scimUser "userName") in
  ret (mkUserResource scimUser' groupsList).

Definition getUsers_main (filter : obj) : M error (list user_resource) :=
  rows <- userSchema_findMany (Some (WFields filter)) ;;
  for_each getUsers_row rows.

Definition getUsers (g : getObj)
  : world -> outcome (list user_resource) * world :=
  fun w =>
    match getUsers_filter g with
    | inl e => (Thrown e, w)
    | inr None =>
        let text :=
          "getUsers error: mandatory if-else logic not fully implemented" in
        (Thrown (LogicError text), w)
    | inr (Some filter) => run_main "getUsers" (getUsers_main filter) w
    end.

(** *** createUser *)

Definition create_error (err : store_error) : error :=
  if String.eqb (code err) "P2002" then DuplicateKey (meta err)
  else FieldError (meta err) (emessage err).

Definition createUser (userObj : obj) (e : env)
  : world -> outcome user_row * world :=
  run_main "createUser"
    (newUser <- mapper Outbound userObj config_map_user ;;
     response <- catch (userSchema_create newUser e) create_error ;;
     ret response).

(** *** deleteUser *)

Definition delete_error (kind id : string) (err : store_error) : error :=
  if String.eqb (code err) "P2025" then NotFound kind id
  else StoreFault (emessage err).

(** The callback of [groups.forEach]: the update is started and its
    promise is dropped ([forEach] returns [undefined]). *)
Definition prune_group {E : Type} (user : user_row) (group : group_row)
  : M E unit :=
  groupSchema_update_unawaited
    (WFields [("id", VStr (gid group))])
    (filter (fun item => negb (String.eqb item (uid user))) (members group)).

Definition deleteUser (id : string) (e : env)
  : world -> outcome unit * world :=
  run_main "deleteUser"
    (wh <- mapper Outbound [("userName", VStr id)] config_map_user ;;
     found <- userSchema_findUnique (WFields wh) ;;
     match found with
     | None => throw (NotFound "User" id)
     | Some user =>
         groups <- listGroupsFor (VStr (uid user)) ;;
         for_each (prune_group user) groups ;;;
         wh' <- mapper Outbound [("userName", VStr id)] config_map_user ;;
         catch (userSchema_delete (WFields wh') e) (delete_error "User" id)
     end).

(** *** modifyUser *)

Definition passthrough (err : store_error) : error :=
  StoreFault (emessage err).

Definition modifyUser (id : string) (attrObj : obj) (e : env)
  : world -> outcome unit * world :=
  run_main "modifyUser"
    (updatedUser <- mapper Outbound attrObj config_map_user ;;
     wh <- mapper Outbound [("userName", VStr id)] config_map_user ;;
     found <- userSchema_findUnique (WFields wh) ;;
     match found with
     | Some _ =>
         wh' <- mapper Outbound [("userName", VStr id)] config_map_user ;;
         catch (userSchema_update (WFields wh') updatedUser e) passthrough
     | None => throw (NotFound "User" id)
     end).

(** *** getGroups *)

(** The "mandatory if-else logic" of getGroups: every branch but the first
    is empty and leaves [filter] undefined ([inr None]). *)
Definition getGroups_filter (g : getObj) : error + option obj :=
  if truthy (operator g) then
    if is_str (operator g) "eq"
       && includes_opt ["id"; "displayName"; "externalId"] (attribute g)
    then
      match endpointMapper Outbound [("id", fvalue g)] config_map_group with
      | Some res => inr (Some res)
      | None => inl MappingTypeError
      end
    else if is_str (operator g) "eq" && is_str (attribute g) "members.value"
    then inr None
    else inr None
  else if truthy (rawFilter g) then inr None
  else inr None.

Definition user_ref (user : user_row) : M error ref :=
  formattedUser <- mapper Inbound (user_doc user) config_map_user ;;
  ret (mkRef (get formattedUser "id") (get formattedUser "userName")).

Definition getGroups_row (row : group_row) : M error group_resource :=
  scimGroup <- mapper Inbound (group_doc row) config_map_group ;;
  users <- userSchema_findMany (Some (WIdIn (members row))) ;;
  members <- for_each user_ref users ;;
  ret (mkGroupResource scimGroup members).

Definition getGroups_main (filter : option obj)
  : M error (list group_resource) :=
  rows <- groupSchema_findMany (option_map WFields filter) ;;
  for_each getGroups_row rows.

Definition getGroups (g : getObj)
  : world -> outcome (list group_resource) * world :=
  fun w =>
    match getGroups_filter g with
    | inl e => (Thrown e, w)
    | inr filter => run_main "getGroups" (getGroups_main filter) w
    end.

(** *** createGroup *)

Definition createGroup (groupObj : obj) (e : env)
  : world -> outcome unit * world :=
  run_main "createGroup"
    (newGroup <- mapper Outbound groupObj config_map_group ;;
     catch (groupSchema_create newGroup [] e) create_error ;;;
     ret tt).

(** *** deleteGroup *)

Definition deleteGroup (id : string) (e : env)
  : world -> outcome unit * world :=
  run_main "deleteGroup"
    (wh <- mapper Outbound [("id", VStr id)] config_map_group ;;
     found <- groupSchema_findUnique (WFields wh) ;;
     match found with
     | None => throw (NotFound "Group" id)
     | Some _ =>
         wh' <- mapper Outbound [("id", VStr id)] config_map_group ;;
         catch (groupSchema_delete (WFields wh') e) (delete_error "Group" id)
     end).

(** *** modifyGroup *)

(** One element of [attrObj.members]. *)
Record member_edit : Type := mkEdit {
  mvalue : value;                (* member.value *)
  operation : option string
}.

(** The [attrObj] of modifyGroup: its scalar attributes and [members]. *)
Record group_attrObj : Type := mkAttrObj {
  attrs : obj;
  amembers : option (list member_edit)
}.

(** What the variable [newMembers] refers to: the very array
    [selectedGroup.members] (as after [let newMembers =
    selectedGroup.members]), or an array of its own (as after
    [newMembers = selectedGroup.members.filter(...)]). *)
Inductive binding : Type :=
| SameArray
| OwnArray (l : list string).

(** The two variables of the member loop. *)
Record loop_state : Type := mkLoop {
  selected_members : list string;     (* selectedGroup.members *)
  newMembers : binding
}.

Definition current (s : loop_state) : list string :=
  match newMembers s with
  | SameArray => selected_members s
  | OwnArray l => l
  end.

(** [newMembers.push(x)]: through the shared array it also grows
    [selectedGroup.members]. *)
Definition push (s : loop_state) (x : string) : loop_state :=
  match newMembers s with
  | SameArray => mkLoop (selected_members s ++ [x]) SameArray
  | OwnArray l => mkLoop (selected_members s) (OwnArray (l ++ [x]))
  end.

(** The body of the loop once the member's user is resolved to [id]. *)
Definition edit (s : loop_state) (op : option string) (id : string)
  : loop_state :=
  if is_str op "delete" then
    mkLoop (selected_members s)
           (OwnArray (filter (fun item => negb (String.eqb item id))
                             (selected_members s)))
  else if negb (includes (current s) id) then push s id
  else s.

Definition apply_edit (id : string) (s : loop_state) (member : member_edit)
  : M error loop_state :=
  userFilter <- mapper Outbound [("userName", mvalue member)] config_map_user ;;
  found <- userSchema_findFirst (WFields userFilter) ;;
  match found with
  | None => throw (MemberNotFound id)
  | Some user => ret (edit s (operation member) (uid user))
  end.

(** The member loop of modifyGroup; it returns the final [newMembers]. *)
Definition applyMembershipEdits (id : string) (selectedGroup : group_row)
  (attrObj : group_attrObj) : M error (list string) :=
  let s0 := mkLoop (members selectedGroup) SameArray in
  match amembers attrObj with
  | Some (m :: ms) =>
      s <- for_fold (apply_edit id) s0 (m :: ms) ;; ret (current s)
  | _ => ret (current s0)
  end.

Definition modifyGroup (id : string) (attrObj : group_attrObj) (e : env)
  : world -> outcome unit * world :=
  run_main "modifyGroup"
    (updatedGroup <- mapper Outbound (attrs attrObj) config_map_group ;;
     wh <- mapper Outbound [("id", VStr id)] config_map_group ;;
     found <- groupSchema_findUnique (WFields wh) ;;
     match found with
     | None => throw (NotFound "Group" id)
     | Some selectedGroup =>
         newMembers <- applyMembershipEdits id selectedGroup attrObj ;;
         let updatedGroup' := del updatedGroup "id" in
         wh' <- mapper Outbound [("id", VStr id)] config_map_group ;;
         catch (groupSchema_update (WFields wh') updatedGroup'
                                   (Some newMembers) e)
               passthrough
     end).

(** *** The eight operations as requests *)

Inductive request : Type :=
| GetUsers (g : getObj)
| CreateUser (userObj : obj)
| DeleteUser (id : string)
| ModifyUser (id : string) (attrObj : obj)
| GetGroups (g : getObj)
| CreateGroup (groupObj : obj)
| DeleteGroup (id : string)
| ModifyGroup (id : string) (attrObj : group_attrObj).

(** The world an operation leaves behind. *)
Definition step (r : request) (e : env) (w : world) : world :=
  match r with
  | GetUsers g => snd (getUsers g w)
  | CreateUser o => snd (createUser o e w)
  | DeleteUser id => snd (deleteUser id e w)
  | ModifyUser id o => snd (modifyUser id o e w)
  | GetGroups g => snd (getGroups g w)
  | CreateGroup o => snd (createGroup o e w)
  | DeleteGroup id => snd (deleteGroup id e w)
  | ModifyGroup id a => snd (modifyGroup id a e w)
  end.

(* ================================================================= *)
(** ** Vocabulary of the properties *)

(** *** The mapper and the two lookups *)

Definition no_number (r : rule) : bool :=
  match rtype r with TNumber => false | _ => true end.

(** What the inbound path leaves under the external name [k]: the value
    of the last rule for [k] whose internal field is present. *)
Fixpoint inbound_get (rules : list rule) (doc : obj) (k : string) (d : value)
  : value :=
  match rules with
  | [] => d
  | r :: rs =>
      inbound_get rs doc k
        (if String.eqb (mapTo r) k then
           match lookup doc (field r) with
           | None | Some VUndef => d
           | Some v => v
           end
         else d)
  end.

(** The user documents called [name], the group documents keyed [id]. *)
Definition user_named (name : string) (u : user_row) : bool :=
  value_eqb (get (user_doc u) "username") (VStr name).

Definition group_keyed (id : string) (g : group_row) : bool :=
  String.eqb (gid g) id.

(** The [where] objects the mapper yields for them. *)
Definition by_name (name : string) : where_clause :=
  WFields [("username", VStr name)].

Definition by_key (id : string) : where_clause :=
  WFields [("id", VStr id); ("_id", VStr id)].

Definition user_absent (st : store) (name : string) : Prop :=
  forall u, In u (users st) -> user_named name u = false.

Definition group_absent (st : store) (id : string) : Prop :=
  forall g, In g (groups st) -> group_keyed id g = false.

Definition user_present (st : store) (name : string) : Prop :=
  exists u, In u (users st) /\ user_named name u = true.

Definition group_present (st : store) (id : string) : Prop :=
  exists g, In g (groups st) /\ group_keyed id g = true.

(** Some user document has the key [id]. *)
Definition user_exists (st : store) (id : string) : Prop :=
  exists u, In u (users st) /\ uid u = id.

(** The member list of the group keyed [id]. *)
Definition group_members (st : store) (id : string) : option (list string) :=
  option_map members (find (group_keyed id) (groups st)).

(** No group lists the user key [k]. *)
Definition no_member (k : string) (st : store) : Prop :=
  forall g, In g (groups st) -> ~ In k (members g).

(** *** The read methods as functions of the documents *)

Definition group_ref_of (g : group_row) : ref :=
  let formattedGroup := inbound config_map_group (group_doc g) [] in
  mkRef (get formattedGroup "id") (get formattedGroup "displayName").

Definition user_ref_of (u : user_row) : ref :=
  let formattedUser := inbound config_map_user (user_doc u) [] in
  mkRef (get formattedUser "id") (get formattedUser "userName").

Definition user_resource_of (st : store) (row : user_row) : user_resource :=
  let scimUser := inbound config_map_user (user_doc row) [] in
  mkUserResource
    (set scimUser "id" (get scimUser "userName"))
    (map group_ref_of
         (filter (group_matches (Some (WMembersHas (get scimUser "id"))))
                 (groups st))).

Definition group_resource_of (st : store) (row : group_row) : group_resource :=
  mkGroupResource
    (inbound config_map_group (group_doc row) [])
    (map user_ref_of
         (filter (user_matches (Some (WIdIn (members row)))) (users st))).

(** The store calls made for one row. *)
Definition getUsers_calls (row : user_row) : list call :=
  let scimUser := inbound config_map_user (user_doc row) [] in
  [CFindMany Groups (Some (WMembersHas (get scimUser "id")))].

Definition getGroups_calls (row : group_row) : list call :=
  [CFindMany Users (Some (WIdIn (members row)))].

(** The world [w] with the calls [l] appended to its log. *)
Definition after (l : list call) (w : world) : world :=
  mkWorld (db w) (log w ++ l) (pending w).

(** *** Filters *)

(** Equality on one of the attributes [names]. *)
Definition supported (names : list string) (g : getObj) : bool :=
  is_str (operator g) "eq" && includes_opt names (attribute g).

(** A filter is given, and it is not a supported one. *)
Definition unsupported (names : list string) (g : getObj) : bool :=
  (truthy (operator g) || truthy (rawFilter g)) && negb (supported names g).

Definition user_names : list string := ["id"; "userName"; "externalId"].

Definition group_names : list string := ["id"; "displayName"; "externalId"].

(** The "all groups containing member X" shape. *)
Definition members_value_shape (g : getObj) : bool :=
  is_str (operator g) "eq" && is_str (attribute g) "members.value".

(** A call whose predicate is on [members]. *)
Definition is_membership_query (c : call) : bool :=
  match c with
  | CFindMany _ (Some (WMembersHas _)) => true
  | CFindUnique _ (WMembersHas _) | CFindFirst _ (WMembersHas _) => true
  | _ => false
  end.

(** No filter at all: the full listing. *)
Definition no_filter : getObj := mkGetObj None None VUndef None.

(** *** Refusal *)

(** The operation ended in the plugin's not-found error, having changed
    no document, left no update pending and made no mutating call. *)
Definition refused {A : Type} (action kind id : string) (w : world)
  (r : outcome A * world) : Prop :=
  fst r = Formatted action (NotFound kind id)
  /\ db (snd r) = db w
  /\ pending (snd r) = pending w
  /\ exists l, log (snd r) = log w ++ l /\ existsb is_mutation l = false.

(** The operation ended in the not-found error after its delete call. *)
Definition normalized {A : Type} (action kind id : string) (c : coll)
  (w : world) (r : outcome A * world) : Prop :=
  fst r = Formatted action (NotFound kind id)
  /\ exists l wh, log (snd r) = log w ++ l ++ [CDelete c wh].

(** *** The prune of deleteUser *)

(** The update that [prune_group] starts for one group, and its call. *)
Definition prune_update (user : user_row) (group : group_row)
  : pending_update :=
  mkPending (WFields [("id", VStr (gid group))])
            (filter (fun item => negb (String.eqb item (uid user)))
                    (members group)).

Definition prune_call (group : group_row) : call :=
  CUpdate Groups (WFields [("id", VStr (gid group))]).

(** *** The member loop *)

(** The user a member edit's [value] resolves to. *)
Definition resolve (st : store) (m : member_edit) : option user_row :=
  find (user_matches (Some (WFields [("username", mvalue m)]))) (users st).

(** The edits with their values resolved to user keys, if all resolve. *)
Fixpoint resolve_all (st : store) (es : list member_edit)
  : option (list (option string * string)) :=
  match es with
  | [] => Some []
  | m :: es' =>
      match resolve st m, resolve_all st es' with
      | Some u, Some rs => Some ((operation m, uid u) :: rs)
      | _, _ => None
      end
  end.

(** The loop on resolved edits. *)
Definition run_loop (s : loop_state) (rs : list (option string * string))
  : loop_state :=
  fold_left (fun s r => edit s (fst r) (snd r)) rs s.

(** [attrObj.members], empty when absent. *)
Definition edits_of (a : group_attrObj) : list member_edit :=
  match amembers a with
  | Some es => es
  | None => []
  end.

(** The lookup made for one edit. *)
Definition edit_call (m : member_edit) : call :=
  CFindFirst Users (WFields [("username", mvalue m)]).

(** The fold the specification describes, written from its wording: a
    delete removes the id from the working list, any other edit appends
    it unless it is already there. *)
Definition spec_edit (working : list string) (r : option string * string)
  : list string :=
  if is_str (fst r) "delete" then
    filter (fun item => negb (String.eqb item (snd r))) working
  else if includes working (snd r) then working
  else working ++ [snd r].

Definition spec_applyMembershipEdits (current : list string)
  (rs : list (option string * string)) : list string :=
  fold_left spec_edit rs current.

Definition add_edit (u : string) : member_edit :=
  mkEdit (VStr u) (Some "add").

Definition delete_edit (u : string) : member_edit :=
  mkEdit (VStr u) (Some "delete").

(** How many of the resolved edits are deletes. *)
Definition deletes (rs : list (option string * string)) : nat :=
  List.length (filter (fun r => is_str (fst r) "delete") rs).

(** *** Duplicate-free member lists *)

Definition members_nodup (st : store) : Prop :=
  Forall (fun g => NoDup (members g)) (groups st).

(** Neither the documents nor the pending updates carry a duplicate. *)
Definition world_nodup (w : world) : Prop :=
  members_nodup (db w)
  /\ Forall (fun p => NoDup (upd_members p)) (pending w).

Definition loop_nodup (s : loop_state) : Prop :=
  NoDup (selected_members s) /\ NoDup (current s).

(** [c] keeps the invariant [I], whether it throws or not, and its result
    satisfies [Q]. *)
Definition keeps {E A : Type} (I : world -> Prop) (c : M E A)
  (Q : A -> Prop) : Prop :=
  forall w, I w -> I (snd (c w)) /\ forall a, fst (c w) = inr a -> Q a.

Definition any {A : Type} (_ : A) : Prop := True.

(** *** Two small stores *)

(** alice and bob, both members of the group eng. *)
Definition alice : user_row := mkUser "u1" [("username", VStr "alice")].

Definition bob : user_row := mkUser "u2" [("username", VStr "bob")].

Definition eng : group_row := mkGroup "g1" [("name", VStr "eng")] ["u1"; "u2"].

Definition sample : world := mkWorld (mkStore [alice; bob] [eng]) [] [].

(** A group that still lists u9, a user that no longer exists. *)
Definition carol_gone : world :=
  mkWorld (mkStore [alice; bob]
                   [mkGroup "g2" [("name", VStr "ops")] ["u2"; "u9"]])
          [] [].

(** *** Further vocabulary *)

(** The operation changed no document, left no update pending and made
    no mutating call. *)
Definition read_only {A : Type} (w : world) (r : outcome A * world) : Prop :=
  db (snd r) = db w
  /\ pending (snd r) = pending w
  /\ exists l, log (snd r) = log w ++ l /\ existsb is_mutation l = false.

(** The group [g] lists the user key [k]. *)
Definition lists (k : string) (g : group_row) : bool :=
  includes (members g) k.

(** [{ value: <key>, display: <name> }] of a stored group. *)
Definition group_entry (g : group_row) : ref :=
  mkRef (VStr (gid g)) (get (group_doc g) "name").

(** What the outbound path leaves under the internal field [f]. *)
Fixpoint outbound_lookup (rules : list rule) (o : obj) (f : string)
  (d : option value) : option value :=
  match rules with
  | [] => d
  | r :: rs =>
      outbound_lookup rs o f
        (if String.eqb (field r) f then
           match lookup o (mapTo r) with
           | Some v =>
               match coerce (rtype r) v with
               | Some v' => Some v'
               | None => d
               end
           | None => d
           end
         else d)
  end.

(** The stored name of a user. *)
Definition user_name (u : user_row) : value := get (user_doc u) "username".

(** The list [l] without the id [x]. *)
Definition without (x : string) (l : list string) : list string :=
  filter (fun item => negb (String.eqb item x)) l.

(** The group [g] with the user key [k] taken out of its member list. *)
Definition strip (k : string) (g : group_row) : group_row :=
  mkGroup (gid g) (gfields g) (without k (members g)).

(** No filter is given: neither an operator nor a raw filter. *)
Definition unfiltered (g : getObj) : bool :=
  negb (truthy (operator g)) && negb (truthy (rawFilter g)).

(** The store rejects the call with the code [c]. *)
Definition rejected (c : string) : env :=
  mkEnv "" (Some (mkStoreError c "{}" "connection lost")).

(** Delete bob, add alice, delete alice. *)
Definition three_edits : group_attrObj :=
  mkAttrObj []
    (Some [delete_edit "bob"; add_edit "alice"; delete_edit "alice"]).

(* ================================================================= *)
(** ** Objects *)

Lemma value_eqb_refl (v : value) : value_eqb v v = true.
Proof.
  destruct v; simpl; auto using String.eqb_refl, Bool.eqb_reflx, Z.eqb_refl.
Qed.

Lemma lookup_set_same (o : obj) (k : string) (v : value) :
  lookup (set o k v) k = Some v.
Proof.
  induction o as [|[k' v'] o IH]; simpl.
  - now rewrite String.eqb_refl.
  - destruct (String.eqb k' k) eqn:E; simpl; rewrite E; auto.
Qed.

Lemma lookup_set_other (o : obj) (k k' : string) (v : value) :
  k <> k' -> lookup (set o k v) k' = lookup o k'.
Proof.
  intros Hne. induction o as [|[k0 v0] o IH]; simpl.
  - destruct (String.eqb k k') eqn:E; auto.
    apply String.eqb_eq in E. contradiction.
  - destruct (String.eqb k0 k) eqn:E; simpl.
    + apply String.eqb_eq in E. subst k0.
      destruct (String.eqb k k') eqn:E'; auto.
      apply String.eqb_eq in E'. contradiction.
    + now rewrite IH.
Qed.

Lemma get_set_same (o : obj) (k : string) (v : value) :
  get (set o k v) k = v.
Proof. unfold get. now rewrite lookup_set_same. Qed.

Lemma get_set_other (o : obj) (k k' : string) (v : value) :
  k <> k' -> get (set o k v) k' = get o k'.
Proof. intros H. unfold get. now rewrite lookup_set_other. Qed.

Lemma includes_In (l : list string) (x : string) :
  includes l x = true <-> In x l.
Proof.
  unfold includes. rewrite existsb_exists. split.
  - intros (y & Hy & E). apply String.eqb_eq in E. now subst.
  - intros H. exists x. split; auto. apply String.eqb_refl.
Qed.

Lemma includes_app (l l' : list string) (x : string) :
  includes (l ++ l') x = includes l x || includes l' x.
Proof. unfold includes. apply existsb_app. Qed.

(* ================================================================= *)
(** ** The mapper on the configured tables *)

Lemma user_where (v : value) :
  endpointMapper Outbound [("userName", v)] config_map_user
  = Some [("username", v)].
Proof. reflexivity. Qed.

Lemma group_where (v : value) :
  endpointMapper Outbound [("id", v)] config_map_group
  = Some [("id", v); ("_id", v)].
Proof. reflexivity. Qed.

Lemma outbound_total (rules : list rule) (o acc : obj) :
  forallb no_number rules = true -> exists res, outbound rules o acc = Some res.
Proof.
  revert acc. induction rules as [|r rs IH]; intros acc H; simpl.
  - eauto.
  - simpl in H. apply andb_prop in H as [Hr Hrs].
    destruct (lookup o (mapTo r)) as [v|]; auto.
    unfold no_number in Hr. destruct (rtype r); simpl; auto. discriminate.
Qed.

Lemma mapper_user_total (o : obj) :
  exists res, endpointMapper Outbound o config_map_user = Some res.
Proof. apply outbound_total. reflexivity. Qed.

Lemma mapper_group_total (o : obj) :
  exists res, endpointMapper Outbound o config_map_group = Some res.
Proof. apply outbound_total. reflexivity. Qed.

Lemma get_inbound (rules : list rule) (doc acc : obj) (k : string) :
  get (inbound rules doc acc) k = inbound_get rules doc k (get acc k).
Proof.
  revert acc. induction rules as [|r rs IH]; intros acc; simpl; auto.
  destruct (String.eqb (mapTo r) k) eqn:E.
  - apply String.eqb_eq in E. subst k.
    destruct (lookup doc (field r)) as [[| | |]|]; rewrite IH;
      now rewrite ?get_set_same.
  - apply String.eqb_neq in E.
    destruct (lookup doc (field r)) as [[| | |]|]; rewrite IH;
      now rewrite ?get_set_other.
Qed.

Lemma inbound_user_id (u : user_row) :
  get (inbound config_map_user (user_doc u) []) "id" = VStr (uid u).
Proof. rewrite get_inbound. reflexivity. Qed.

Lemma inbound_user_userName (u : user_row) :
  get (inbound config_map_user (user_doc u) []) "userName"
  = get (user_doc u) "username".
Proof.
  rewrite get_inbound. unfold get. cbn.
  now destruct (lookup (ufields u) "username") as [[| | |]|].
Qed.

Lemma inbound_group_id (g : group_row) :
  get (inbound config_map_group (group_doc g) []) "id" = VStr (gid g).
Proof. rewrite get_inbound. reflexivity. Qed.

Lemma inbound_group_displayName (g : group_row) :
  get (inbound config_map_group (group_doc g) []) "displayName"
  = get (group_doc g) "name".
Proof.
  rewrite get_inbound. unfold get. cbn.
  now destruct (lookup (gfields g) "name") as [[| | |]|].
Qed.

Lemma user_resource_id (st : store) (row : user_row) :
  get (user_attrs (user_resource_of st row)) "id"
  = get (user_doc row) "username".
Proof.
  unfold user_resource_of. cbn [user_attrs].
  now rewrite get_set_same, inbound_user_userName.
Qed.

Lemma group_resource_id (st : store) (row : group_row) :
  get (group_attrs (group_resource_of st row)) "id" = VStr (gid row).
Proof.
  unfold group_resource_of. cbn [group_attrs]. apply inbound_group_id.
Qed.

Lemma user_resource_userName (st : store) (u : user_row) :
  get (user_attrs (user_resource_of st u)) "userName" = user_name u.
Proof.
  unfold user_resource_of. cbn [user_attrs].
  rewrite get_set_other by discriminate. apply inbound_user_userName.
Qed.

Lemma group_resource_displayName (st : store) (g : group_row) :
  get (group_attrs (group_resource_of st g)) "displayName"
  = get (group_doc g) "name".
Proof.
  unfold group_resource_of. cbn [group_attrs].
  apply inbound_group_displayName.
Qed.

Lemma user_named_name (n : string) (u : user_row) :
  user_named n u = true <-> user_name u = VStr n.
Proof.
  unfold user_named, user_name.
  destruct (get (user_doc u) "username"); simpl; split;
    try discriminate; intros H.
  - apply String.eqb_eq in H. now subst.
  - injection H as ->. apply String.eqb_refl.
Qed.

Lemma user_matches_name (name : string) (u : user_row) :
  user_matches (Some (WFields [("username", VStr name)])) u = user_named name u.
Proof. unfold user_named. simpl. now rewrite andb_true_r. Qed.

Lemma group_matches_key (id : string) (g : group_row) :
  group_matches (Some (WFields [("id", VStr id); ("_id", VStr id)])) g
  = group_keyed id g.
Proof.
  unfold group_keyed. simpl. rewrite andb_true_r.
  now destruct (String.eqb (gid g) id).
Qed.

Lemma group_matches_id (id : string) (g : group_row) :
  group_matches (Some (WFields [("id", VStr id)])) g = group_keyed id g.
Proof. unfold group_keyed. simpl. now rewrite andb_true_r. Qed.

(* ================================================================= *)
(** ** The read methods *)

Lemma after_nil (w : world) : after [] w = w.
Proof. destruct w. unfold after. simpl. now rewrite app_nil_r. Qed.

Lemma after_after (l l' : list call) (w : world) :
  after l' (after l w) = after (l ++ l') w.
Proof. unfold after. simpl. now rewrite app_assoc. Qed.

Section ForEach.
Context {E A B : Type}.
Variable f : A -> M E B.
Variable g : store -> A -> B.
Variable calls : A -> list call.
Hypothesis f_reads :
  forall x w, f x w = (inr (g (db w) x), after (calls x) w).

Lemma for_each_reads (l : list A) (w : world) :
  for_each f l w
  = (inr (map (g (db w)) l), after (List.concat (map calls l)) w).
Proof.
  revert w. induction l as [|x l IH]; intros w; simpl.
  - unfold ret. now rewrite after_nil.
  - unfold bind. rewrite f_reads, IH. unfold ret. simpl.
    now rewrite after_after.
Qed.
End ForEach.

Lemma group_ref_reads (g : group_row) (w : world) :
  group_ref g w = (inr (group_ref_of g), after [] w).
Proof. now rewrite after_nil. Qed.

Lemma user_ref_reads (u : user_row) (w : world) :
  user_ref u w = (inr (user_ref_of u), after [] w).
Proof. now rewrite after_nil. Qed.

Lemma concat_map_nil {A B : Type} (l : list A) :
  List.concat (map (fun _ : A => @nil B) l) = [].
Proof. induction l; simpl; auto. Qed.

Lemma getUsers_row_reads (row : user_row) (w : world) :
  getUsers_row row w
  = (inr (user_resource_of (db w) row), after (getUsers_calls row) w).
Proof.
  unfold getUsers_row, mapper, endpointMapper, bind, ret, listGroupsFor,
    groupSchema_findMany.
  rewrite (for_each_reads group_ref (fun _ => group_ref_of) (fun _ => []))
    by (intros; apply group_ref_reads).
  rewrite concat_map_nil, after_nil. reflexivity.
Qed.

Lemma getGroups_row_reads (row : group_row) (w : world) :
  getGroups_row row w
  = (inr (group_resource_of (db w) row), after (getGroups_calls row) w).
Proof.
  unfold getGroups_row, mapper, endpointMapper, bind, ret,
    userSchema_findMany.
  rewrite (for_each_reads user_ref (fun _ => user_ref_of) (fun _ => []))
    by (intros; apply user_ref_reads).
  rewrite concat_map_nil, after_nil. reflexivity.
Qed.

Lemma getUsers_main_reads (f : obj) (w : world) :
  let rows := filter (user_matches (Some (WFields f))) (users (db w)) in
  getUsers_main f w
  = (inr (map (user_resource_of (db w)) rows),
     after (CFindMany Users (Some (WFields f))
              :: List.concat (map getUsers_calls rows)) w).
Proof.
  intros rows. unfold getUsers_main, bind, userSchema_findMany.
  rewrite (for_each_reads getUsers_row user_resource_of getUsers_calls)
    by apply getUsers_row_reads.
  change (logged (CFindMany Users (Some (WFields f))) w)
    with (after [CFindMany Users (Some (WFields f))] w).
  now rewrite after_after.
Qed.

Lemma getGroups_main_reads (f : option obj) (w : world) :
  let rows := filter (group_matches (option_map WFields f)) (groups (db w)) in
  getGroups_main f w
  = (inr (map (group_resource_of (db w)) rows),
     after (CFindMany Groups (option_map WFields f)
              :: List.concat (map getGroups_calls rows)) w).
Proof.
  intros rows. unfold getGroups_main, bind, groupSchema_findMany.
  rewrite (for_each_reads getGroups_row group_resource_of getGroups_calls)
    by apply getGroups_row_reads.
  change (logged (CFindMany Groups (option_map WFields f)) w)
    with (after [CFindMany Groups (option_map WFields f)] w).
  now rewrite after_after.
Qed.

(* ================================================================= *)
(** ** Filter translation *)

Lemma is_str_eq_truthy (o : option string) :
  is_str o "eq" = true -> truthy o = true.
Proof.
  destruct o as [s|]; simpl; try discriminate.
  intros H. apply String.eqb_eq in H. now subst.
Qed.

Lemma filter_all {A : Type} (l : list A) : filter (fun _ => true) l = l.
Proof. induction l; simpl; congruence. Qed.

Lemma existsb_concat_map {A B : Type} (p : B -> bool) (f : A -> list B)
  (l : list A) :
  (forall x, existsb p (f x) = false) ->
  existsb p (List.concat (map f l)) = false.
Proof.
  intros H. induction l as [|x l IH]; simpl; auto.
  now rewrite existsb_app, H, IH.
Qed.

(** X26: in getUsers every filter other than equality on id, userName
    or externalId (any other operator, the group.value shape, any raw
    filter) is rejected with the unsupported-filter error, whose text
    ends with the raw filter string, and the world is returned as it
    was: no call has been made on the store. *)
Theorem getUsers_rejects_unsupported_filter (g : getObj) (w : world) :
  unsupported user_names g = true ->
  exists text,
    getUsers g w
    = (Thrown (UnsupportedFilter (text ++ show (rawFilter g))), w).
Proof.
  unfold unsupported, supported, user_names, getUsers, getUsers_filter.
  intros H. apply andb_prop in H as [Hf Hs]. apply negb_true_iff in Hs.
  rewrite Hs.
  destruct (truthy (operator g)) eqn:Hop.
  - destruct (is_str (operator g) "eq" && is_str (attribute g) "group.value");
      eauto.
  - simpl in Hf. rewrite Hf. eauto.
Qed.

Lemma getUsers_rejects_unsupported_filter_witness :
  exists text,
    getUsers (mkGetObj (Some "userName") (Some "co") (VStr "al")
                       (Some "userName co al")) sample
    = (Thrown (UnsupportedFilter (text ++ "userName co al")), sample).
Proof.
  apply (getUsers_rejects_unsupported_filter
           (mkGetObj (Some "userName") (Some "co") (VStr "al")
                     (Some "userName co al")) sample).
  reflexivity.
Defined.

Lemma getUsers_resolves (g : getObj) (f : obj) (w : world) :
  getUsers_filter g = inr (Some f) ->
  let rows := filter (user_matches (Some (WFields f))) (users (db w)) in
  getUsers g w
  = (Resolved (map (user_resource_of (db w)) rows),
     after (CFindMany Users (Some (WFields f))
              :: List.concat (map getUsers_calls rows)) w).
Proof.
  intros Hf rows. unfold getUsers. rewrite Hf. unfold run_main.
  now rewrite getUsers_main_reads.
Qed.

Lemma getGroups_resolves (g : getObj) (f : option obj) (w : world) :
  getGroups_filter g = inr f ->
  let rows := filter (group_matches (option_map WFields f)) (groups (db w)) in
  getGroups g w
  = (Resolved (map (group_resource_of (db w)) rows),
     after (CFindMany Groups (option_map WFields f)
              :: List.concat (map getGroups_calls rows)) w).
Proof.
  intros Hf rows. unfold getGroups. rewrite Hf. unfold run_main.
  now rewrite getGroups_main_reads.
Qed.

(** C5 at its failing inputs: getGroups is given "displayName co zz",
    and then a raw filter alone.  Its branches for these shapes are
    empty and no guard follows them: it throws nothing, reads the groups
    without a predicate and returns the group eng with its members,
    although no group name contains zz.  getUsers rejects the same two
    shapes before any call on the store. *)
Theorem getGroups_answers_unsupported_filter :
  let co := mkGetObj (Some "displayName") (Some "co") (VStr "zz")
                     (Some "displayName co zz") in
  let raw := mkGetObj None None VUndef
                      (Some "displayName eq a or displayName eq b") in
  let listing :=
    (Resolved
       [mkGroupResource [("id", VStr "g1"); ("displayName", VStr "eng")]
                        [mkRef (VStr "u1") (VStr "alice");
                         mkRef (VStr "u2") (VStr "bob")]],
     after [CFindMany Groups None;
            CFindMany Users (Some (WIdIn ["u1"; "u2"]))] sample) in
  unsupported group_names co = true
  /\ unsupported group_names raw = true
  /\ getGroups co sample = listing
  /\ getGroups raw sample = listing
  /\ getUsers co sample
     = (Thrown
          (UnsupportedFilter
             "getUsers error: not supporting simpel filtering: displayName co zz"),
        sample)
  /\ getUsers raw sample
     = (Thrown
          (UnsupportedFilter
             ("getUsers not error: supporting advanced filtering: "
                ++ "displayName eq a or displayName eq b")),
        sample).
Proof. repeat split. Qed.

(** C6 at its failing input: "members.value eq u9" on the store of
    alice, bob and the group eng, which does not list u9.  The branch
    for this shape is empty, so getGroups leaves its filter undefined,
    reads the groups without a predicate and returns eng with its
    members.  The result is not empty, and it is not what a membership
    query for u9 selects (no group); no call carries a membership
    predicate. *)
Theorem getGroups_members_value_returns_every_group :
  let g := mkGetObj (Some "members.value") (Some "eq") (VStr "u9")
                    (Some "members.value eq u9") in
  members_value_shape g = true
  /\ lists "u9" eng = false
  /\ filter (group_matches (Some (WMembersHas (VStr "u9"))))
            (groups (db sample)) = []
  /\ getGroups_filter g = inr None
  /\ getGroups g sample
     = (Resolved
          [mkGroupResource [("id", VStr "g1"); ("displayName", VStr "eng")]
                           [mkRef (VStr "u1") (VStr "alice");
                            mkRef (VStr "u2") (VStr "bob")]],
        after [CFindMany Groups None;
               CFindMany Users (Some (WIdIn ["u1"; "u2"]))] sample)
  /\ existsb is_membership_query (log (snd (getGroups g sample))) = false.
Proof. repeat split. Qed.

(** C7 at its failing input: "displayName eq eng" on the store whose
    only group is named eng.  getGroups maps [{id: "eng"}] and not
    [{displayName: "eng"}]: the predicate is on the key, no group has the
    key eng, and nothing is returned.  The predicate that the outbound
    path yields for [{displayName: "eng"}] is on the name and selects the
    group.  For users the lookup is by name: "userName eq bob" returns
    bob. *)
Theorem getGroups_displayName_lookup_is_by_key :
  let g := mkGetObj (Some "displayName") (Some "eq") (VStr "eng")
                    (Some "displayName eq eng") in
  supported group_names g = true
  /\ getGroups_filter g = inr (Some [("id", VStr "eng"); ("_id", VStr "eng")])
  /\ getGroups g sample
     = (Resolved [],
        after [CFindMany Groups
                 (Some (WFields [("id", VStr "eng"); ("_id", VStr "eng")]))]
              sample)
  /\ endpointMapper Outbound [("displayName", VStr "eng")] config_map_group
     = Some [("name", VStr "eng")]
  /\ filter (group_matches (Some (WFields [("name", VStr "eng")])))
            (groups (db sample)) = [eng]
  /\ fst (getUsers (mkGetObj (Some "userName") (Some "eq") (VStr "bob")
                             (Some "userName eq bob")) sample)
     = Resolved [user_resource_of (db sample) bob].
Proof. repeat split. Qed.

(** X27: for an equality on id, userName or externalId with the value
    [n], getUsers maps [{userName: n}] outbound, which yields the
    predicate [{username: n}], reads the users with it first, and
    returns the resources of exactly the stored users named [n], in
    store order. *)
Theorem getUsers_lookup_by_name (g : getObj) (w : world) (n : string) :
  supported user_names g = true ->
  fvalue g = VStr n ->
  endpointMapper Outbound [("userName", fvalue g)] config_map_user
  = Some [("username", VStr n)]
  /\ getUsers_filter g = inr (Some [("username", VStr n)])
  /\ fst (getUsers g w)
     = Resolved (map (user_resource_of (db w))
                     (filter (user_named n) (users (db w))))
  /\ exists l,
       log (snd (getUsers g w))
       = log w ++ CFindMany Users (Some (by_name n)) :: l.
Proof.
  unfold supported, user_names. intros Hs Hv.
  assert (Hf : getUsers_filter g = inr (Some [("username", VStr n)])).
  { unfold getUsers_filter. rewrite Hs, user_where, Hv.
    apply andb_prop in Hs as [Hop _].
    now rewrite (is_str_eq_truthy _ Hop). }
  split; [rewrite user_where; now rewrite Hv|].
  split; [exact Hf|].
  rewrite (getUsers_resolves g _ w Hf). cbn [fst snd after log]. split.
  - f_equal. f_equal. apply filter_ext. intros u. apply user_matches_name.
  - eexists. reflexivity.
Qed.

Lemma getUsers_lookup_by_name_witness :
  let g := mkGetObj (Some "externalId") (Some "eq") (VStr "bob")
                    (Some "externalId eq bob") in
  endpointMapper Outbound [("userName", fvalue g)] config_map_user
  = Some [("username", VStr "bob")]
  /\ getUsers_filter g = inr (Some [("username", VStr "bob")])
  /\ fst (getUsers g sample)
     = Resolved (map (user_resource_of (db sample))
                     (filter (user_named "bob") (users (db sample))))
  /\ exists l,
       log (snd (getUsers g sample))
       = log sample ++ CFindMany Users (Some (by_name "bob")) :: l.
Proof.
  apply (getUsers_lookup_by_name
           (mkGetObj (Some "externalId") (Some "eq") (VStr "bob")
                     (Some "externalId eq bob")) sample "bob");
    reflexivity.
Defined.

(** X28: for "id eq k" getGroups maps [{id: k}] outbound, reads the
    groups with the predicate on the key first, and returns the
    resources of exactly the stored groups keyed [k], in store order. *)
Theorem getGroups_lookup_by_key (g : getObj) (w : world) (k : string) :
  is_str (operator g) "eq" = true ->
  is_str (attribute g) "id" = true ->
  fvalue g = VStr k ->
  getGroups_filter g = inr (Some [("id", VStr k); ("_id", VStr k)])
  /\ fst (getGroups g w)
     = Resolved (map (group_resource_of (db w))
                     (filter (group_keyed k) (groups (db w))))
  /\ exists l,
       log (snd (getGroups g w))
       = log w ++ CFindMany Groups (Some (by_key k)) :: l.
Proof.
  intros Hop Hat Hv.
  assert (Hf : getGroups_filter g
               = inr (Some [("id", VStr k); ("_id", VStr k)])).
  { unfold getGroups_filter.
    rewrite (is_str_eq_truthy _ Hop), Hop, group_where, Hv.
    destruct (attribute g) as [a|]; try discriminate.
    cbn in Hat. apply String.eqb_eq in Hat. subst a. reflexivity. }
  split; [exact Hf|].
  rewrite (getGroups_resolves g _ w Hf). cbn [fst snd after log option_map].
  split.
  - f_equal. f_equal. apply filter_ext. intros x. apply group_matches_key.
  - eexists. reflexivity.
Qed.

Lemma getGroups_lookup_by_key_witness :
  let g := mkGetObj (Some "id") (Some "eq") (VStr "g1") (Some "id eq g1") in
  getGroups_filter g = inr (Some [("id", VStr "g1"); ("_id", VStr "g1")])
  /\ fst (getGroups g sample)
     = Resolved (map (group_resource_of (db sample))
                     (filter (group_keyed "g1") (groups (db sample))))
  /\ exists l,
       log (snd (getGroups g sample))
       = log sample ++ CFindMany Groups (Some (by_key "g1")) :: l.
Proof.
  apply (getGroups_lookup_by_key
           (mkGetObj (Some "id") (Some "eq") (VStr "g1") (Some "id eq g1"))
           sample "g1"); reflexivity.
Defined.

(* ================================================================= *)
(** ** What the read methods return *)

(** C9: every user resource that getUsers returns has its [id] equal to
    its [userName], and that value is the [username] of one of the stored
    users. *)
Theorem getUsers_id_is_userName (g : getObj) (w : world)
  (rs : list user_resource) (r : user_resource) :
  fst (getUsers g w) = Resolved rs ->
  In r rs ->
  get (user_attrs r) "id" = get (user_attrs r) "userName"
  /\ exists row,
       In row (users (db w))
       /\ get (user_attrs r) "id" = get (user_doc row) "username".
Proof.
  unfold getUsers. destruct (getUsers_filter g) as [e|[f|]]; simpl;
    try discriminate.
  unfold run_main. rewrite getUsers_main_reads. simpl.
  intros H Hr. injection H as <-.
  apply in_map_iff in Hr as (row & <- & Hrow).
  apply filter_In in Hrow as [Hrow _].
  unfold user_resource_of. cbn [user_attrs].
  rewrite get_set_same, get_set_other by discriminate.
  split; auto. exists row. split; auto. apply inbound_user_userName.
Qed.

Lemma getUsers_id_is_userName_witness :
  get (user_attrs (user_resource_of (db sample) alice)) "id"
  = get (user_attrs (user_resource_of (db sample) alice)) "userName"
  /\ exists row,
       In row (users (db sample))
       /\ get (user_attrs (user_resource_of (db sample) alice)) "id"
          = get (user_doc row) "username".
Proof.
  apply (getUsers_id_is_userName no_filter sample
           (map (user_resource_of (db sample)) [alice; bob])).
  - reflexivity.
  - left. reflexivity.
Defined.

Lemma user_ref_of_eq (u : user_row) :
  user_ref_of u = mkRef (VStr (uid u)) (get (user_doc u) "username").
Proof.
  unfold user_ref_of. now rewrite inbound_user_id, inbound_user_userName.
Qed.

Lemma selected_keys_nodup (p : user_row -> bool) (us : list user_row) :
  NoDup (map uid us) -> NoDup (map uid (filter p us)).
Proof.
  induction us as [|u us IH]; simpl; intros H; auto.
  inversion H as [|? ? Hu Hus]; subst.
  destruct (p u); simpl; auto.
  constructor; auto. intros Hin. apply Hu.
  apply in_map_iff in Hin as (u' & <- & Hu').
  apply filter_In in Hu' as [Hu' _]. now apply in_map.
Qed.

Lemma VStr_nodup (ks : list string) : NoDup ks -> NoDup (map VStr ks).
Proof.
  induction 1 as [|k ks Hk Hks IH]; simpl; constructor; auto.
  intros Hin. apply in_map_iff in Hin as (k' & [= ->] & Hk'). contradiction.
Qed.

Lemma getGroups_filter_total (g : getObj) :
  exists f, getGroups_filter g = inr f.
Proof.
  unfold getGroups_filter. rewrite group_where.
  destruct (truthy (operator g)); [|destruct (truthy (rawFilter g)); eauto].
  destruct (is_str (operator g) "eq" && includes_opt _ _); eauto.
  destruct (is_str (operator g) "eq" && is_str _ _); eauto.
Qed.

(** C10: user keys being unique, getGroups resolves, whatever the filter
    and whatever the stored member lists hold, with one resource per
    group that the store selects, in store order.  The resource of a
    group carries that group's key as [id], and its [members] hold no
    value twice: the values are exactly the ids of that group's stored
    member list that are keys of existing users, each with that user's
    name as [display]; an id of the stored list that is no user's key
    does not appear. *)
Theorem getGroups_members_resolved (g : getObj) (w : world) :
  NoDup (map uid (users (db w))) ->
  exists f rs,
    getGroups_filter g = inr f
    /\ fst (getGroups g w) = Resolved rs
    /\ Forall2
         (fun row r =>
            get (group_attrs r) "id" = VStr (gid row)
            /\ NoDup (map rvalue (res_members r))
            /\ (forall id,
                   In (VStr id) (map rvalue (res_members r))
                   <-> In id (members row) /\ user_exists (db w) id)
            /\ (forall id,
                   In id (members row) -> ~ user_exists (db w) id ->
                   ~ In (VStr id) (map rvalue (res_members r)))
            /\ (forall m,
                   In m (res_members r) ->
                   exists u,
                     In u (users (db w))
                     /\ In (uid u) (members row)
                     /\ rvalue m = VStr (uid u)
                     /\ display m = get (user_doc u) "username"))
         (filter (group_matches (option_map WFields f)) (groups (db w)))
         rs.
Proof.
  intros Hnd. destruct (getGroups_filter_total g) as [f Hf].
  exists f. eexists. split; [exact Hf|].
  rewrite (getGroups_resolves g f w Hf). cbn [fst]. split; [reflexivity|].
  induction (filter (group_matches (option_map WFields f)) (groups (db w)))
    as [|row rows IH]; cbn [map]; constructor; auto.
  split; [apply group_resource_id|].
  unfold group_resource_of. cbn [res_members]. rewrite map_map.
  rewrite (map_ext _ (fun u => VStr (uid u)))
    by (intros u; now rewrite user_ref_of_eq).
  assert (Hiff : forall id,
             In (VStr id)
                (map (fun u => VStr (uid u))
                     (filter (user_matches (Some (WIdIn (members row))))
                             (users (db w))))
             <-> In id (members row) /\ user_exists (db w) id).
  { intros id. rewrite in_map_iff. split.
    - intros (u & E & Hu). injection E as <-.
      apply filter_In in Hu as [Hu Hm]. cbn [user_matches] in Hm.
      apply includes_In in Hm. split; auto. now exists u.
    - intros [Hm (u & Hu & <-)]. exists u. split; auto.
      apply filter_In. split; auto. cbn [user_matches].
      now apply includes_In. }
  split; [|split; [exact Hiff|split]].
  - rewrite <- (map_map uid VStr).
    now apply VStr_nodup, selected_keys_nodup.
  - intros id _ Hno Hin. apply Hiff in Hin. tauto.
  - intros m Hm. apply in_map_iff in Hm as (u & <- & Hu).
    apply filter_In in Hu as [Hu Hin]. cbn [user_matches] in Hin.
    apply includes_In in Hin. exists u.
    rewrite user_ref_of_eq. auto.
Qed.

Lemma getGroups_members_resolved_witness :
  exists f rs,
    getGroups_filter no_filter = inr f
    /\ fst (getGroups no_filter carol_gone) = Resolved rs
    /\ Forall2
         (fun row r =>
            get (group_attrs r) "id" = VStr (gid row)
            /\ NoDup (map rvalue (res_members r))
            /\ (forall id,
                   In (VStr id) (map rvalue (res_members r))
                   <-> In id (members row) /\ user_exists (db carol_gone) id)
            /\ (forall id,
                   In id (members row) -> ~ user_exists (db carol_gone) id ->
                   ~ In (VStr id) (map rvalue (res_members r)))
            /\ (forall m,
                   In m (res_members r) ->
                   exists u,
                     In u (users (db carol_gone))
                     /\ In (uid u) (members row)
                     /\ rvalue m = VStr (uid u)
                     /\ display m = get (user_doc u) "username"))
         (filter (group_matches (option_map WFields f))
                 (groups (db carol_gone)))
         rs.
Proof.
  apply (getGroups_members_resolved no_filter carol_gone).
  simpl. repeat constructor; simpl; intuition discriminate.
Defined.

(* ================================================================= *)
(** ** Existence checks *)

Lemma find_absent {A : Type} (p : A -> bool) (l : list A) :
  (forall x, In x l -> p x = false) -> find p l = None.
Proof.
  induction l as [|x l IH]; simpl; intros H; auto.
  rewrite (H x) by auto. auto.
Qed.

Lemma find_present {A : Type} (p : A -> bool) (l : list A) :
  (exists x, In x l /\ p x = true) ->
  exists y, find p l = Some y /\ In y l /\ p y = true.
Proof.
  induction l as [|x l IH]; simpl; intros (y & Hy & Py); [contradiction|].
  destruct (p x) eqn:Px; eauto.
  destruct Hy as [->|Hy]; [congruence|].
  destruct IH as (z & Hz & Iz & Pz); eauto.
Qed.

Lemma find_user_by_name (name : string) (l : list user_row) :
  find (user_matches (Some (by_name name))) l = find (user_named name) l.
Proof.
  induction l as [|u l IH]; cbn [find]; auto.
  unfold by_name in *. rewrite user_matches_name, IH. reflexivity.
Qed.

Lemma find_group_by_key (id : string) (l : list group_row) :
  find (group_matches (Some (by_key id))) l = find (group_keyed id) l.
Proof.
  induction l as [|g l IH]; cbn [find]; auto.
  unfold by_key in *. rewrite group_matches_key, IH. reflexivity.
Qed.

Lemma for_each_prune {E : Type} (user : user_row) (gs : list group_row)
  (w : world) :
  for_each (@prune_group E user) gs w
  = (inr (map (fun _ => tt) gs),
     mkWorld (db w) (log w ++ map prune_call gs)
             (pending w ++ map (prune_update user) gs)).
Proof.
  revert w. induction gs as [|g gs IH]; intros w; simpl.
  - unfold ret. destruct w. simpl. now rewrite !app_nil_r.
  - unfold bind at 1. unfold prune_group at 1, groupSchema_update_unawaited.
    unfold bind. rewrite IH. unfold ret. simpl.
    now rewrite <- !app_assoc.
Qed.

Lemma deleteUser_absent (id : string) (e : env) (w : world) :
  user_absent (db w) id ->
  deleteUser id e w
  = (Formatted "deleteUser" (NotFound "User" id),
     after [CFindUnique Users (by_name id)] w).
Proof.
  intros H. unfold deleteUser, run_main, mapper. rewrite user_where.
  unfold bind, ret, userSchema_findUnique. fold (by_name id).
  rewrite find_user_by_name, (find_absent _ _ H). reflexivity.
Qed.

Lemma modifyUser_absent (id : string) (a : obj) (e : env) (w : world) :
  user_absent (db w) id ->
  modifyUser id a e w
  = (Formatted "modifyUser" (NotFound "User" id),
     after [CFindUnique Users (by_name id)] w).
Proof.
  intros H. unfold modifyUser, run_main, mapper.
  destruct (mapper_user_total a) as [res ->]. rewrite user_where.
  unfold bind, ret, userSchema_findUnique. fold (by_name id).
  rewrite find_user_by_name, (find_absent _ _ H). reflexivity.
Qed.

Lemma deleteGroup_absent (id : string) (e : env) (w : world) :
  group_absent (db w) id ->
  deleteGroup id e w
  = (Formatted "deleteGroup" (NotFound "Group" id),
     after [CFindUnique Groups (by_key id)] w).
Proof.
  intros H. unfold deleteGroup, run_main, mapper. rewrite group_where.
  unfold bind, ret, groupSchema_findUnique. fold (by_key id).
  rewrite find_group_by_key, (find_absent _ _ H). reflexivity.
Qed.

Lemma modifyGroup_absent (id : string) (a : group_attrObj) (e : env)
  (w : world) :
  group_absent (db w) id ->
  modifyGroup id a e w
  = (Formatted "modifyGroup" (NotFound "Group" id),
     after [CFindUnique Groups (by_key id)] w).
Proof.
  intros H. unfold modifyGroup, run_main, mapper.
  destruct (mapper_group_total (attrs a)) as [res ->]. rewrite group_where.
  unfold bind, ret, groupSchema_findUnique. fold (by_key id).
  rewrite find_group_by_key, (find_absent _ _ H). reflexivity.
Qed.

Lemma refused_after {A : Type} (action kind id : string) (w : world)
  (c : call) :
  is_mutation c = false ->
  @refused A action kind id w
           (Formatted action (NotFound kind id), after [c] w).
Proof.
  intros Hc. repeat split. exists [c]. simpl. now rewrite Hc.
Qed.

(** deleteUser when the user is found. *)
Lemma deleteUser_found (id : string) (e : env) (w : world) (user : user_row) :
  find (user_named id) (users (db w)) = Some user ->
  let gs := filter (group_matches (Some (WMembersHas (VStr (uid user)))))
                   (groups (db w)) in
  let w1 := mkWorld (db w)
              (log w ++ ([CFindUnique Users (by_name id);
                          CFindMany Groups
                            (Some (WMembersHas (VStr (uid user))))]
                           ++ map prune_call gs)
                     ++ [CDelete Users (by_name id)])
              (pending w ++ map (prune_update user) gs) in
  deleteUser id e w
  = match fault e with
    | Some err => (Formatted "deleteUser" (delete_error "User" id err), w1)
    | None =>
        match delete_first (user_matches (Some (by_name id))) (users (db w))
        with
        | Some us => (Resolved tt, with_db (mkStore us (groups (db w))) w1)
        | None => (Formatted "deleteUser" (delete_error "User" id P2025), w1)
        end
    end.
Proof.
  intros Hf gs w1. unfold deleteUser, run_main, mapper. rewrite user_where.
  unfold bind at 1. unfold ret at 1.
  unfold bind at 1. unfold userSchema_findUnique at 1. fold (by_name id).
  rewrite find_user_by_name, Hf.
  unfold bind at 1. unfold listGroupsFor, groupSchema_findMany at 1.
  unfold bind at 1. rewrite for_each_prune.
  unfold bind, ret, catch, userSchema_delete, logged, with_db, formatError.
  subst w1 gs. cbn [db log pending]. rewrite <- !app_assoc. cbn [app].
  destruct (fault e); [reflexivity|].
  destruct (delete_first _ _); reflexivity.
Qed.

Lemma deleteGroup_found (id : string) (e : env) (w : world) (g : group_row) :
  find (group_keyed id) (groups (db w)) = Some g ->
  let w1 := after [CFindUnique Groups (by_key id);
                   CDelete Groups (by_key id)] w in
  deleteGroup id e w
  = match fault e with
    | Some err => (Formatted "deleteGroup" (delete_error "Group" id err), w1)
    | None =>
        match delete_first (group_matches (Some (by_key id))) (groups (db w))
        with
        | Some gs => (Resolved tt, with_db (mkStore (users (db w)) gs) w1)
        | None => (Formatted "deleteGroup" (delete_error "Group" id P2025), w1)
        end
    end.
Proof.
  intros Hf w1. unfold deleteGroup, run_main, mapper. rewrite group_where.
  unfold bind, ret, groupSchema_findUnique. fold (by_key id).
  rewrite find_group_by_key, Hf.
  unfold catch, groupSchema_delete, logged, with_db, formatError.
  subst w1. unfold after. cbn [db log pending]. rewrite <- !app_assoc.
  cbn [app].
  destruct (fault e); [reflexivity|].
  destruct (delete_first _ _); reflexivity.
Qed.

(** C8: when the user name (the group key) resolves to no document,
    deleteUser and modifyUser (deleteGroup and modifyGroup) end in the
    not-found error with the documents unchanged, nothing pending and no
    mutating call made; and when the document is there but the delete
    call is rejected with code P2025, deleteUser and deleteGroup end in
    that same not-found error. *)
Theorem not_found_before_mutation
  (w : world) (uname gname : string) (e : env) (a : obj) (ga : group_attrObj)
  (w' : world) (uname' gname' : string) (e' : env) (err : store_error) :
  user_absent (db w) uname ->
  group_absent (db w) gname ->
  user_present (db w') uname' ->
  group_present (db w') gname' ->
  fault e' = Some err ->
  code err = "P2025" ->
  (refused "deleteUser" "User" uname w (deleteUser uname e w)
   /\ refused "modifyUser" "User" uname w (modifyUser uname a e w)
   /\ refused "deleteGroup" "Group" gname w (deleteGroup gname e w)
   /\ refused "modifyGroup" "Group" gname w (modifyGroup gname ga e w))
  /\ (normalized "deleteUser" "User" uname' Users w' (deleteUser uname' e' w')
      /\ normalized "deleteGroup" "Group" gname' Groups w'
                    (deleteGroup gname' e' w')).
Proof.
  intros Hu Hg Hu' Hg' He Hc. split; [|split].
  - rewrite (deleteUser_absent _ _ _ Hu), (modifyUser_absent _ _ _ _ Hu),
      (deleteGroup_absent _ _ _ Hg), (modifyGroup_absent _ _ _ _ Hg).
    split; [|split; [|split]]; apply refused_after; reflexivity.
  - apply find_present in Hu' as (user & Hf & _).
    rewrite (deleteUser_found _ _ _ _ Hf), He.
    unfold delete_error. rewrite Hc. simpl. split; auto.
    eexists (_ :: _ :: map prune_call _), _. reflexivity.
  - apply find_present in Hg' as (g & Hf & _).
    rewrite (deleteGroup_found _ _ _ _ Hf), He.
    unfold delete_error. rewrite Hc. simpl. split; auto.
    exists [CFindUnique Groups (by_key gname')], (by_key gname').
    reflexivity.
Qed.

Lemma not_found_before_mutation_witness :
  (refused "deleteUser" "User" "carol" sample
           (deleteUser "carol" no_fault sample)
   /\ refused "modifyUser" "User" "carol" sample
              (modifyUser "carol" [("active", VBool false)] no_fault sample)
   /\ refused "deleteGroup" "Group" "g7" sample
              (deleteGroup "g7" no_fault sample)
   /\ refused "modifyGroup" "Group" "g7" sample
              (modifyGroup "g7" (mkAttrObj [] None) no_fault sample))
  /\ (normalized "deleteUser" "User" "alice" Users sample
                 (deleteUser "alice" (mkEnv "" (Some P2025)) sample)
      /\ normalized "deleteGroup" "Group" "g1" Groups sample
                    (deleteGroup "g1" (mkEnv "" (Some P2025)) sample)).
Proof.
  apply (not_found_before_mutation
           sample "carol" "g7" no_fault [("active", VBool false)]
           (mkAttrObj [] None)
           sample "alice" "g1" (mkEnv "" (Some P2025)) P2025).
  - intros u [<-|[<-|[]]]; reflexivity.
  - intros g [<-|[]]; reflexivity.
  - exists alice. split; [left|]; reflexivity.
  - exists eng. split; [left|]; reflexivity.
  - reflexivity.
  - reflexivity.
Defined.

(* ================================================================= *)
(** ** The member loop of modifyGroup *)

Lemma for_fold_resolved (id : string) (es : list member_edit)
  (rs : list (option string * string)) (s : loop_state) (w : world) :
  resolve_all (db w) es = Some rs ->
  for_fold (apply_edit id) s es w
  = (inr (run_loop s rs), after (map edit_call es) w).
Proof.
  revert rs s w. induction es as [|m es IH]; intros rs s w H; simpl in *.
  - injection H as <-. unfold ret. now rewrite after_nil.
  - destruct (resolve (db w) m) as [u|] eqn:Hu; try discriminate.
    destruct (resolve_all (db w) es) as [rs'|] eqn:Hrs; try discriminate.
    injection H as <-.
    unfold bind at 1. unfold apply_edit at 1, mapper.
    rewrite user_where. unfold bind, ret, userSchema_findFirst.
    unfold resolve in Hu. rewrite Hu.
    change (logged (CFindFirst Users (WFields [("username", mvalue m)])) w)
      with (after [edit_call m] w).
    rewrite (IH rs') by assumption. now rewrite after_after.
Qed.

Lemma for_fold_unresolved (id : string) (es : list member_edit)
  (s : loop_state) (w : world) :
  resolve_all (db w) es = None ->
  exists l,
    for_fold (apply_edit id) s es w = (inl (MemberNotFound id), after l w)
    /\ existsb is_mutation l = false.
Proof.
  revert s w. induction es as [|m es IH]; intros s w H; simpl in *;
    try discriminate.
  unfold bind at 1. unfold apply_edit at 1, mapper.
  rewrite user_where. unfold bind, ret, userSchema_findFirst.
  change (logged (CFindFirst Users (WFields [("username", mvalue m)])) w)
    with (after [edit_call m] w).
  fold (resolve (db w) m).
  destruct (resolve (db w) m) as [u|] eqn:Hu.
  - destruct (resolve_all (db w) es) as [rs'|] eqn:Hrs; try discriminate.
    destruct (IH (edit s (operation m) (uid u)) (after [edit_call m] w))
      as (l & -> & Hl); [assumption|].
    exists (edit_call m :: l). now rewrite after_after.
  - exists [edit_call m]. now split.
Qed.

Lemma applyMembershipEdits_loop (id : string) (g : group_row)
  (a : group_attrObj) (w : world) :
  applyMembershipEdits id g a w
  = bind (for_fold (apply_edit id) (mkLoop (members g) SameArray)
                   (edits_of a))
         (fun s => ret (current s)) w.
Proof.
  unfold applyMembershipEdits, edits_of.
  now destruct (amembers a) as [[|m ms]|].
Qed.

Lemma applyMembershipEdits_resolved (id : string) (g : group_row)
  (a : group_attrObj) (rs : list (option string * string)) (w : world) :
  resolve_all (db w) (edits_of a) = Some rs ->
  applyMembershipEdits id g a w
  = (inr (current (run_loop (mkLoop (members g) SameArray) rs)),
     after (map edit_call (edits_of a)) w).
Proof.
  intros H. rewrite applyMembershipEdits_loop. unfold bind.
  now rewrite (for_fold_resolved _ _ _ _ _ H).
Qed.

(** C1 at its failing input: the group lists u1 and u2, the edits delete
    alice (u1) and then bob (u2), and both resolve.  The fold of the
    specification ends with the empty list; the loop, whose delete branch
    filters [selectedGroup.members] and not the working list, ends with
    [u1], and that is what modifyGroup stores. *)
Theorem applyMembershipEdits_second_delete_undoes_first :
  let edits := [delete_edit "alice"; delete_edit "bob"] in
  resolve_all (db sample) edits
  = Some [(Some "delete", "u1"); (Some "delete", "u2")]
  /\ fst (applyMembershipEdits "g1" eng (mkAttrObj [] (Some edits)) sample)
     = inr ["u1"]
  /\ spec_applyMembershipEdits (members eng)
       [(Some "delete", "u1"); (Some "delete", "u2")] = []
  /\ group_members
       (db (snd (modifyGroup "g1" (mkAttrObj [] (Some edits)) no_fault
                             sample)))
       "g1"
     = Some ["u1"].
Proof. repeat split. Qed.

Lemma current_push (s : loop_state) (x : string) :
  current (push s x) = current s ++ [x].
Proof. unfold push, current. now destruct (newMembers s). Qed.

Lemma current_edit_add (s : loop_state) (r : option string * string) :
  is_str (fst r) "delete" = false ->
  current (edit s (fst r) (snd r)) = spec_edit (current s) r.
Proof.
  intros H. unfold edit, spec_edit. rewrite H.
  destruct (includes (current s) (snd r)); simpl; auto using current_push.
Qed.

Lemma run_loop_adds (rs : list (option string * string)) (s : loop_state) :
  deletes rs = 0 ->
  current (run_loop s rs) = spec_applyMembershipEdits (current s) rs.
Proof.
  unfold deletes. revert s.
  induction rs as [|r rs IH]; intros s H; simpl in *; auto.
  destruct (is_str (fst r) "delete") eqn:E; simpl in H; try discriminate.
  unfold run_loop, spec_applyMembershipEdits in *. rewrite IH by assumption.
  now rewrite current_edit_add.
Qed.

Lemma edit_add_shares (s : loop_state) (op : option string) (x : string) :
  is_str op "delete" = false ->
  newMembers s = SameArray -> newMembers (edit s op x) = SameArray.
Proof.
  intros H Hs. unfold edit, push. rewrite H.
  destruct (negb (includes (current s) x)); auto. now rewrite Hs.
Qed.

(** With at most one delete among the edits the loop computes the fold. *)
Lemma run_loop_one_delete (rs : list (option string * string))
  (s : loop_state) :
  newMembers s = SameArray ->
  deletes rs <= 1 ->
  current (run_loop s rs) = spec_applyMembershipEdits (current s) rs.
Proof.
  unfold deletes. revert s.
  induction rs as [|r rs IH]; intros s Hs H; simpl in *; auto.
  destruct (is_str (fst r) "delete") eqn:E; simpl in H.
  - unfold run_loop, spec_applyMembershipEdits. simpl.
    fold (run_loop (edit s (fst r) (snd r)) rs).
    rewrite run_loop_adds by (unfold deletes; lia).
    f_equal. unfold edit, spec_edit, current. now rewrite E, Hs.
  - unfold run_loop, spec_applyMembershipEdits in *. simpl.
    rewrite IH; auto using edit_add_shares.
    now rewrite current_edit_add.
Qed.

(** X24: when every edit resolves and at most one of them is a delete,
    the member loop returns the fold of the edits, in order, over the
    group's member list. *)
Theorem applyMembershipEdits_one_delete_agrees (id : string) (g : group_row)
  (a : group_attrObj) (rs : list (option string * string)) (w : world) :
  resolve_all (db w) (edits_of a) = Some rs ->
  deletes rs <= 1 ->
  fst (applyMembershipEdits id g a w)
  = inr (spec_applyMembershipEdits (members g) rs).
Proof.
  intros Hr Hd. rewrite (applyMembershipEdits_resolved _ _ _ _ _ Hr). simpl.
  now rewrite run_loop_one_delete.
Qed.

Lemma applyMembershipEdits_one_delete_agrees_witness :
  let a := mkAttrObj [] (Some [add_edit "alice"; delete_edit "bob";
                               add_edit "bob"]) in
  fst (applyMembershipEdits "g2"
         (mkGroup "g2" [("name", VStr "ops")] ["u2"; "u9"]) a carol_gone)
  = inr (spec_applyMembershipEdits ["u2"; "u9"]
           [(Some "add", "u1"); (Some "delete", "u2"); (Some "add", "u2")]).
Proof.
  apply (applyMembershipEdits_one_delete_agrees "g2"
           (mkGroup "g2" [("name", VStr "ops")] ["u2"; "u9"])
           (mkAttrObj [] (Some [add_edit "alice"; delete_edit "bob";
                                add_edit "bob"]))
           [(Some "add", "u1"); (Some "delete", "u2"); (Some "add", "u2")]
           carol_gone).
  - reflexivity.
  - unfold deletes. simpl. lia.
Defined.

(** modifyGroup when the group is found and every edit resolves. *)
Lemma modifyGroup_found (id : string) (a : group_attrObj) (e : env)
  (w : world) (g : group_row) (data : obj)
  (rs : list (option string * string)) :
  find (group_keyed id) (groups (db w)) = Some g ->
  endpointMapper Outbound (attrs a) config_map_group = Some data ->
  resolve_all (db w) (edits_of a) = Some rs ->
  let nm := current (run_loop (mkLoop (members g) SameArray) rs) in
  let w1 := after (CFindUnique Groups (by_key id)
                     :: map edit_call (edits_of a)
                     ++ [CUpdate Groups (by_key id)]) w in
  modifyGroup id a e w
  = match fault e with
    | Some err => (Formatted "modifyGroup" (passthrough err), w1)
    | None =>
        match update_group (by_key id) (del data "id") (Some nm) (db w) with
        | Some st => (Resolved tt, with_db st w1)
        | None => (Formatted "modifyGroup" (passthrough P2025), w1)
        end
    end.
Proof.
  intros Hf Hd Hr nm w1. unfold modifyGroup, run_main, mapper.
  rewrite Hd, group_where.
  unfold bind at 1. unfold ret at 1.
  unfold bind at 1. unfold ret at 1.
  unfold bind at 1. unfold groupSchema_findUnique at 1. fold (by_key id).
  rewrite find_group_by_key, Hf.
  unfold bind at 1.
  change (logged (CFindUnique Groups (by_key id)) w)
    with (after [CFindUnique Groups (by_key id)] w).
  rewrite (applyMembershipEdits_resolved id g a rs) by assumption.
  rewrite after_after.
  unfold bind, ret, catch, groupSchema_update, logged, with_db, formatError.
  subst w1 nm. unfold after. cbn [db log pending].
  rewrite <- !app_assoc. cbn [app].
  destruct (fault e); [reflexivity|].
  destruct (update_group _ _ _ _); reflexivity.
Qed.

Lemma modifyGroup_unresolved (id : string) (a : group_attrObj) (e : env)
  (w : world) (g : group_row) :
  find (group_keyed id) (groups (db w)) = Some g ->
  resolve_all (db w) (edits_of a) = None ->
  exists l,
    modifyGroup id a e w
    = (Formatted "modifyGroup" (MemberNotFound id), after l w)
    /\ existsb is_mutation l = false.
Proof.
  intros Hf Hr. unfold modifyGroup, run_main, mapper.
  destruct (mapper_group_total (attrs a)) as [data ->].
  rewrite group_where.
  unfold bind at 1. unfold ret at 1.
  unfold bind at 1. unfold ret at 1.
  unfold bind at 1. unfold groupSchema_findUnique at 1. fold (by_key id).
  rewrite find_group_by_key, Hf.
  unfold bind at 1.
  change (logged (CFindUnique Groups (by_key id)) w)
    with (after [CFindUnique Groups (by_key id)] w).
  rewrite applyMembershipEdits_loop. unfold bind at 1.
  destruct (for_fold_unresolved id (edits_of a)
              (mkLoop (members g) SameArray)
              (after [CFindUnique Groups (by_key id)] w))
    as (l & -> & Hl); [assumption|].
  rewrite after_after. eexists. split; [reflexivity|]. exact Hl.
Qed.

(* ================================================================= *)
(** ** Adding a member twice *)

Section UpdateFirst.
Context {A : Type}.
Variable p : A -> bool.
Variable f : A -> A.
Hypothesis f_keeps : forall x, p (f x) = p x.

Lemma update_first_find (l l' : list A) :
  update_first p f l = Some l' ->
  exists x, find p l = Some x /\ find p l' = Some (f x).
Proof.
  revert l'. induction l as [|y l IH]; intros l' H; simpl in *;
    try discriminate.
  destruct (p y) eqn:Py.
  - injection H as <-. exists y. simpl. now rewrite f_keeps, Py.
  - destruct (update_first p f l) as [l0|]; try discriminate.
    injection H as <-. destruct (IH l0 eq_refl) as (x & Hx & Hx').
    exists x. simpl. now rewrite Py.
Qed.

Lemma update_first_found (l : list A) (x : A) :
  find p l = Some x -> exists l', update_first p f l = Some l'.
Proof.
  induction l as [|y l IH]; simpl; try discriminate.
  destruct (p y); eauto.
  intros H. destruct (IH H) as [l' ->]. simpl. eauto.
Qed.
End UpdateFirst.

Lemma write_group_keeps (id : string) (data : obj) (ms : option (list string))
  (g : group_row) :
  group_matches (Some (by_key id)) (write_group data ms g)
  = group_matches (Some (by_key id)) g.
Proof. unfold by_key. now rewrite !group_matches_key. Qed.

Lemma update_group_members (id : string) (data : obj) (nm : list string)
  (st st' : store) :
  update_group (by_key id) data (Some nm) st = Some st' ->
  users st' = users st
  /\ exists g,
       find (group_keyed id) (groups st) = Some g
       /\ find (group_keyed id) (groups st')
          = Some (write_group data (Some nm) g).
Proof.
  unfold update_group. intros H.
  destruct (update_first _ _ (groups st)) as [gs|] eqn:Hu; try discriminate.
  injection H as <-. split; auto.
  apply update_first_find in Hu as (g & Hg & Hg');
    [|apply write_group_keeps].
  exists g. now rewrite <- !find_group_by_key.
Qed.

Lemma includes_after_add (l : list string) (x : string) :
  includes (if includes l x then l else l ++ [x]) x = true.
Proof.
  destruct (includes l x) eqn:E; auto.
  rewrite includes_app, E. simpl. now rewrite String.eqb_refl.
Qed.

Lemma current_add (l : list string) (x : string) :
  current (edit (mkLoop l SameArray) (Some "add") x)
  = if includes l x then l else l ++ [x].
Proof.
  unfold edit, push, current, includes. cbn.
  destruct (existsb (String.eqb x) l); reflexivity.
Qed.

Lemma current_add_add (l : list string) (x : string) :
  current (edit (edit (mkLoop l SameArray) (Some "add") x) (Some "add") x)
  = current (edit (mkLoop l SameArray) (Some "add") x).
Proof.
  unfold edit at 1. cbn [is_str String.eqb Ascii.eqb Bool.eqb].
  rewrite current_add, includes_after_add. simpl. apply current_add.
Qed.

Lemma current_add_again (l : list string) (x : string) :
  current
    (edit (mkLoop (current (edit (mkLoop l SameArray) (Some "add") x))
                  SameArray)
          (Some "add") x)
  = current (edit (mkLoop l SameArray) (Some "add") x).
Proof.
  rewrite (current_add (current _)), current_add, includes_after_add.
  reflexivity.
Qed.

(** What a resolved call of modifyGroup has done. *)
Lemma modifyGroup_resolved (id : string) (a : group_attrObj) (e : env)
  (w : world) :
  fst (modifyGroup id a e w) = Resolved tt ->
  exists g data rs st,
    find (group_keyed id) (groups (db w)) = Some g
    /\ endpointMapper Outbound (attrs a) config_map_group = Some data
    /\ resolve_all (db w) (edits_of a) = Some rs
    /\ fault e = None
    /\ update_group (by_key id) (del data "id")
         (Some (current (run_loop (mkLoop (members g) SameArray) rs)))
         (db w) = Some st
    /\ db (snd (modifyGroup id a e w)) = st
    /\ pending (snd (modifyGroup id a e w)) = pending w.
Proof.
  intros H.
  destruct (find (group_keyed id) (groups (db w))) as [g|] eqn:Hf.
  - destruct (mapper_group_total (attrs a)) as [data Hd].
    destruct (resolve_all (db w) (edits_of a)) as [rs|] eqn:Hr.
    + rewrite (modifyGroup_found id a e w g data rs Hf Hd Hr) in *.
      destruct (fault e); try discriminate.
      destruct (update_group _ _ _ _) as [st|] eqn:Hu; try discriminate.
      exists g, data, rs, st. repeat split; auto.
    + destruct (modifyGroup_unresolved id a e w g Hf Hr) as (l & E & _).
      rewrite E in H. discriminate.
  - rewrite modifyGroup_absent in H; [discriminate|].
    intros x Hx. now apply (find_none _ _ Hf).
Qed.

(** C3: once modifyGroup has added [u] to a group, a second modifyGroup
    with the same add edit resolves and leaves the group's member list as
    it is; and one call that carries the add edit twice resolves and
    stores the same documents as the call that carries it once. *)
Theorem modifyGroup_add_idempotent (id u : string) (sc : obj) (e1 e2 : env)
  (w : world) :
  let once := mkAttrObj sc (Some [add_edit u]) in
  let twice := mkAttrObj sc (Some [add_edit u; add_edit u]) in
  fst (modifyGroup id once e1 w) = Resolved tt ->
  fault e2 = None ->
  (fst (modifyGroup id once e2 (snd (modifyGroup id once e1 w))) = Resolved tt
   /\ group_members
        (db (snd (modifyGroup id once e2 (snd (modifyGroup id once e1 w)))))
        id
      = group_members (db (snd (modifyGroup id once e1 w))) id)
  /\ (fst (modifyGroup id twice e1 w) = Resolved tt
      /\ db (snd (modifyGroup id twice e1 w))
         = db (snd (modifyGroup id once e1 w))).
Proof.
  intros once twice H He2.
  destruct (modifyGroup_resolved _ _ _ _ H)
    as (g & data & rs & st & Hf & Hd & Hr & He1 & Hu & Hdb & _).
  assert (Hrs : exists usr, resolve (db w) (add_edit u) = Some usr
                            /\ rs = [(Some "add", uid usr)]).
  { simpl in Hr. destruct (resolve (db w) (add_edit u)) as [usr|];
      try discriminate. injection Hr as <-. eauto. }
  destruct Hrs as (usr & Husr & ->).
  assert (Hrr : resolve_all (db w) (edits_of twice)
                = Some [(Some "add", uid usr); (Some "add", uid usr)]).
  { simpl. now rewrite Husr. }
  split.
  - (* two calls *)
    destruct (update_group_members _ _ _ _ _ Hu) as (Hus & g0 & Hg0 & Hf').
    rewrite Hf in Hg0. injection Hg0 as <-.
    set (w1 := snd (modifyGroup id once e1 w)) in *.
    assert (Hr' : resolve_all (db w1) (edits_of once)
                  = Some [(Some "add", uid usr)]).
    { simpl. unfold resolve in *. now rewrite Hdb, Hus, Husr. }
    rewrite Hdb. rewrite <- Hdb in Hf'.
    rewrite (modifyGroup_found id once e2 w1 _ data _ Hf' Hd Hr'), He2.
    cbn [write_group members run_loop fold_left fst snd] in *.
    rewrite current_add_again.
    set (nm := current (edit (mkLoop (members g) SameArray) (Some "add")
                             (uid usr))) in *.
    destruct (update_first_found (group_matches (Some (by_key id)))
                (write_group (del data "id") (Some nm))
                (groups (db w1))
                (write_group (del data "id") (Some nm) g))
      as [gs Hgs].
    { now rewrite find_group_by_key. }
    assert (Hu2 : update_group (by_key id) (del data "id") (Some nm) (db w1)
                  = Some (mkStore (users (db w1)) gs)).
    { unfold update_group. now rewrite Hgs. }
    rewrite Hu2. cbn [fst snd with_db db]. split; auto.
    destruct (update_group_members _ _ _ _ _ Hu2) as (_ & g1 & Hg1 & Hg1').
    unfold group_members. rewrite Hg1'. rewrite <- Hdb, Hg1.
    rewrite Hf' in Hg1. now injection Hg1 as <-.
  - (* one call with the edit twice *)
    rewrite (modifyGroup_found id twice e1 w g data _ Hf Hd Hrr), He1.
    rewrite Hdb.
    cbn [run_loop fold_left fst snd] in *.
    rewrite current_add_add, Hu. auto.
Qed.

Lemma modifyGroup_add_idempotent_witness :
  let once := mkAttrObj [] (Some [add_edit "alice"]) in
  let twice := mkAttrObj [] (Some [add_edit "alice"; add_edit "alice"]) in
  (fst (modifyGroup "g2" once no_fault
                    (snd (modifyGroup "g2" once no_fault carol_gone)))
   = Resolved tt
   /\ group_members
        (db (snd (modifyGroup "g2" once no_fault
                              (snd (modifyGroup "g2" once no_fault
                                                carol_gone)))))
        "g2"
      = group_members (db (snd (modifyGroup "g2" once no_fault carol_gone)))
                      "g2")
  /\ (fst (modifyGroup "g2" twice no_fault carol_gone) = Resolved tt
      /\ db (snd (modifyGroup "g2" twice no_fault carol_gone))
         = db (snd (modifyGroup "g2" once no_fault carol_gone))).
Proof.
  apply (modifyGroup_add_idempotent "g2" "alice" [] no_fault no_fault
           carol_gone); reflexivity.
Defined.

(* ================================================================= *)
(** ** Member lists stay free of duplicates *)

Section Keeps.
Context {E : Type}.
Variable I : world -> Prop.

Lemma keeps_ret {A : Type} (a : A) (Q : A -> Prop) :
  Q a -> keeps I (@ret E A a) Q.
Proof. intros H w Hw. split; auto. simpl. intros b [= <-]. exact H. Qed.

Lemma keeps_throw {A : Type} (e : E) (Q : A -> Prop) :
  keeps I (@throw E A e) Q.
Proof. intros w Hw. split; auto. simpl. discriminate. Qed.

Lemma keeps_bind {A B : Type} (c : M E A) (k : A -> M E B)
  (P : A -> Prop) (Q : B -> Prop) :
  keeps I c P -> (forall a, P a -> keeps I (k a) Q) ->
  keeps I (bind c k) Q.
Proof.
  intros Hc Hk w Hw. unfold bind.
  destruct (Hc w Hw) as [Hi Hq].
  destruct (c w) as [[e|a] w']; simpl in *.
  - split; auto. discriminate.
  - apply (Hk a (Hq a eq_refl) w' Hi).
Qed.

Lemma keeps_for_each {A B : Type} (f : A -> M E B) (l : list A)
  (P : A -> Prop) :
  (forall x, P x -> keeps I (f x) any) -> Forall P l ->
  keeps I (for_each f l) any.
Proof.
  intros Hf. induction 1 as [|x l Hx Hl IH]; simpl.
  - now apply keeps_ret.
  - eapply keeps_bind; [apply (Hf x Hx)|]. intros y _.
    eapply keeps_bind; [apply IH|]. intros ys _. now apply keeps_ret.
Qed.

Lemma keeps_for_fold {A S : Type} (f : S -> A -> M E S) (l : list A)
  (P : S -> Prop) (s : S) :
  (forall s x, P s -> keeps I (f s x) P) -> P s ->
  keeps I (for_fold f s l) P.
Proof.
  intros Hf. revert s. induction l as [|x l IH]; intros s Hs; simpl.
  - now apply keeps_ret.
  - eapply keeps_bind; [apply (Hf s x Hs)|]. intros s' Hs'. now apply IH.
Qed.
End Keeps.

Lemma keeps_catch {E E' A : Type} (I : world -> Prop) (c : M E A)
  (h : E -> E') (Q : A -> Prop) :
  keeps I c Q -> keeps I (catch c h) Q.
Proof.
  intros Hc w Hw. unfold catch. destruct (Hc w Hw) as [Hi Hq].
  destruct (c w) as [[e|a] w']; simpl in *; split; auto.
  - discriminate.
  - intros b [= <-]. now apply Hq.
Qed.

Lemma keeps_run_main {A : Type} (I : world -> Prop) (action : string)
  (main : M error A) (Q : A -> Prop) (w : world) :
  keeps I main Q -> I w -> I (snd (run_main action main w)).
Proof.
  intros Hm Hw. unfold run_main. destruct (Hm w Hw) as [Hi _].
  now destruct (main w) as [[e|a] w'].
Qed.

Lemma keeps_mapper (I : world -> Prop) (d : direction) (o : obj)
  (rules : list rule) :
  keeps I (mapper d o rules) any.
Proof.
  unfold mapper. destruct (endpointMapper d o rules).
  - now apply keeps_ret.
  - apply keeps_throw.
Qed.

(** *** The store calls keep the member lists free of duplicates *)

Lemma Forall_update_first {A : Type} (P : A -> Prop) (p : A -> bool)
  (f : A -> A) (l l' : list A) :
  (forall x, P x -> P (f x)) -> Forall P l ->
  update_first p f l = Some l' -> Forall P l'.
Proof.
  intros Hf H. revert l'. induction H as [|x l Hx Hl IH]; intros l' E;
    simpl in *; try discriminate.
  destruct (p x).
  - injection E as <-. auto.
  - destruct (update_first p f l) as [l0|]; try discriminate.
    injection E as <-. auto.
Qed.

Lemma Forall_delete_first {A : Type} (P : A -> Prop) (p : A -> bool)
  (l l' : list A) :
  Forall P l -> delete_first p l = Some l' -> Forall P l'.
Proof.
  intros H. revert l'. induction H as [|x l Hx Hl IH]; intros l' E;
    simpl in *; try discriminate.
  destruct (p x).
  - now injection E as <-.
  - destruct (delete_first p l) as [l0|]; try discriminate.
    injection E as <-. auto.
Qed.

Lemma Forall_filter {A : Type} (P : A -> Prop) (p : A -> bool) (l : list A) :
  Forall P l -> Forall P (filter p l).
Proof.
  induction 1 as [|x l Hx Hl IH]; simpl; auto. destruct (p x); auto.
Qed.

Lemma update_group_nodup (wh : where_clause) (data : obj)
  (ms : list string) (st st' : store) :
  NoDup ms -> members_nodup st ->
  update_group wh data (Some ms) st = Some st' -> members_nodup st'.
Proof.
  unfold update_group, members_nodup. intros Hms Hst E.
  destruct (update_first _ _ (groups st)) as [gs|] eqn:Hu; try discriminate.
  injection E as <-. simpl.
  eapply Forall_update_first; [|exact Hst|exact Hu]. auto.
Qed.

Lemma land_nodup (st : store) (p : pending_update) :
  NoDup (upd_members p) -> members_nodup st -> members_nodup (land st p).
Proof.
  intros Hp Hst. unfold land.
  destruct (update_group _ _ _ st) as [st'|] eqn:E; auto.
  eapply update_group_nodup; eauto.
Qed.

Lemma land_all_nodup (ps : list pending_update) (st : store) :
  Forall (fun p => NoDup (upd_members p)) ps -> members_nodup st ->
  members_nodup (land_all ps st).
Proof.
  unfold land_all. intros H. revert st.
  induction H as [|p ps Hp Hps IH]; intros st Hst; simpl; auto.
  apply IH. now apply land_nodup.
Qed.

Section StoreCalls.
Context {E : Type}.

Lemma keeps_userSchema_findMany (wh : option where_clause) :
  keeps world_nodup (@userSchema_findMany E wh) any.
Proof. intros w Hw. split; [exact Hw|]. now intros. Qed.

Lemma keeps_userSchema_findUnique (wh : where_clause) :
  keeps world_nodup (@userSchema_findUnique E wh) any.
Proof. intros w Hw. split; [exact Hw|]. now intros. Qed.

Lemma keeps_userSchema_findFirst (wh : where_clause) :
  keeps world_nodup (@userSchema_findFirst E wh) any.
Proof. intros w Hw. split; [exact Hw|]. now intros. Qed.

Lemma keeps_groupSchema_findMany (wh : option where_clause) :
  keeps world_nodup (@groupSchema_findMany E wh)
        (Forall (fun g => NoDup (members g))).
Proof.
  intros w Hw. split; [exact Hw|]. simpl. intros rows [= <-].
  apply Forall_filter, Hw.
Qed.

Lemma keeps_groupSchema_findUnique (wh : where_clause) :
  keeps world_nodup (@groupSchema_findUnique E wh)
        (fun found => forall g, found = Some g -> NoDup (members g)).
Proof.
  intros w Hw. split; [exact Hw|]. simpl. intros found [= <-] g Hg.
  apply find_some in Hg as [Hg _].
  destruct Hw as [Hw _]. unfold members_nodup in Hw.
  rewrite Forall_forall in Hw. now apply Hw.
Qed.

Lemma keeps_update_unawaited (wh : where_clause) (ms : list string) :
  NoDup ms ->
  keeps world_nodup (@groupSchema_update_unawaited E wh ms) any.
Proof.
  intros Hms w [Hd Hp]. split; [|now intros]. split; simpl; auto.
  apply Forall_app. auto.
Qed.
End StoreCalls.

Lemma keeps_userSchema_create (data : obj) (e : env) :
  keeps world_nodup (userSchema_create data e) any.
Proof.
  intros w Hw. split; [|now intros]. unfold userSchema_create.
  destruct (fault e); [exact Hw|].
  destruct (includes _ _); [exact Hw|].
  destruct (name_taken _ _); exact Hw.
Qed.

Lemma keeps_groupSchema_create (data : obj) (e : env) :
  keeps world_nodup (groupSchema_create data [] e) any.
Proof.
  intros w Hw. split; [|now intros]. unfold groupSchema_create.
  destruct (fault e); [exact Hw|].
  destruct (includes _ _); [exact Hw|].
  destruct Hw as [Hd Hp]. split; auto. unfold members_nodup. simpl.
  apply Forall_app. split; auto. repeat constructor.
Qed.

Lemma keeps_userSchema_update (wh : where_clause) (data : obj) (e : env) :
  keeps world_nodup (userSchema_update wh data e) any.
Proof.
  intros w Hw. split; [|now intros]. unfold userSchema_update.
  destruct (fault e); [exact Hw|].
  destruct (name_clash _ _ _); [exact Hw|].
  unfold update_user.
  destruct (update_first _ _ (users (db w))); exact Hw.
Qed.

Lemma keeps_userSchema_delete (wh : where_clause) (e : env) :
  keeps world_nodup (userSchema_delete wh e) any.
Proof.
  intros w Hw. split; [|now intros]. unfold userSchema_delete.
  destruct (fault e); [exact Hw|].
  destruct (delete_first _ (users (db w))); exact Hw.
Qed.

Lemma keeps_groupSchema_delete (wh : where_clause) (e : env) :
  keeps world_nodup (groupSchema_delete wh e) any.
Proof.
  intros w Hw. split; [|now intros]. unfold groupSchema_delete.
  destruct (fault e); [exact Hw|].
  destruct (delete_first _ (groups (db w))) as [gs|] eqn:E; [|exact Hw].
  destruct Hw as [Hd Hp]. split; auto. unfold members_nodup. simpl.
  eapply Forall_delete_first; eauto.
Qed.

Lemma keeps_groupSchema_update (wh : where_clause) (data : obj)
  (ms : list string) (e : env) :
  NoDup ms ->
  keeps world_nodup (groupSchema_update wh data (Some ms) e) any.
Proof.
  intros Hms w Hw. split; [|now intros]. unfold groupSchema_update.
  destruct (fault e); [exact Hw|].
  destruct (update_group wh data (Some ms) (db w)) as [st|] eqn:E;
    [|exact Hw].
  destruct Hw as [Hd Hp]. split; auto. simpl.
  eapply update_group_nodup; eauto.
Qed.

Create HintDb keeps.
#[local] Hint Resolve keeps_mapper keeps_userSchema_findMany
  keeps_userSchema_findUnique keeps_userSchema_findFirst
  keeps_groupSchema_findMany keeps_groupSchema_findUnique
  keeps_userSchema_create keeps_groupSchema_create keeps_userSchema_update
  keeps_userSchema_delete keeps_groupSchema_delete keeps_throw
  keeps_catch : keeps.

(** One [bind]: the first computation by a known rule, then the rest. *)
Tactic Notation "keeps_step" "as" simple_intropattern(x) :=
  eapply keeps_bind; [solve [eauto with keeps]|intros x _].

Lemma NoDup_snoc (l : list string) (x : string) :
  NoDup l -> ~ In x l -> NoDup (l ++ [x]).
Proof.
  induction 1 as [|y l Hy Hl IH]; simpl; intros Hx.
  - repeat constructor. auto.
  - constructor.
    + rewrite in_app_iff. simpl. intuition congruence.
    + apply IH. auto.
Qed.

Lemma edit_nodup (s : loop_state) (op : option string) (x : string) :
  loop_nodup s -> loop_nodup (edit s op x).
Proof.
  intros [Hs Hc]. unfold edit.
  destruct (is_str op "delete").
  - split; simpl; auto. now apply NoDup_filter.
  - destruct (includes (current s) x) eqn:E; simpl; [now split|].
    assert (Hx : ~ In x (current s)).
    { intros Hin. apply includes_In in Hin. congruence. }
    unfold push, loop_nodup, current in *.
    destruct (newMembers s); simpl; auto using NoDup_snoc.
Qed.

Lemma keeps_apply_edit (id : string) (s : loop_state) (m : member_edit) :
  loop_nodup s -> keeps world_nodup (apply_edit id s m) loop_nodup.
Proof.
  intros Hs. unfold apply_edit.
  keeps_step as userFilter. keeps_step as [user|]; [|apply keeps_throw].
  apply keeps_ret. now apply edit_nodup.
Qed.

Lemma keeps_applyMembershipEdits (id : string) (g : group_row)
  (a : group_attrObj) :
  NoDup (members g) ->
  keeps world_nodup (applyMembershipEdits id g a) (@NoDup string).
Proof.
  intros Hg.
  assert (H0 : loop_nodup (mkLoop (members g) SameArray)) by now split.
  unfold applyMembershipEdits.
  destruct (amembers a) as [[|m ms]|]; try (apply keeps_ret; apply H0).
  eapply keeps_bind.
  - apply keeps_for_fold with (P := loop_nodup); [|exact H0].
    intros s x Hs. now apply keeps_apply_edit.
  - intros s [_ Hs]. now apply keeps_ret.
Qed.

Lemma keeps_prune_group (user : user_row) (group : group_row) :
  NoDup (members group) ->
  keeps world_nodup (@prune_group error user group) any.
Proof.
  intros Hg. unfold prune_group. apply keeps_update_unawaited.
  now apply NoDup_filter.
Qed.

Lemma getUsers_nodup (g : getObj) (w : world) :
  world_nodup w -> world_nodup (snd (getUsers g w)).
Proof.
  intros Hw. unfold getUsers.
  destruct (getUsers_filter g) as [e|[f|]]; auto.
  unfold run_main. now rewrite getUsers_main_reads.
Qed.

Lemma getGroups_nodup (g : getObj) (w : world) :
  world_nodup w -> world_nodup (snd (getGroups g w)).
Proof.
  intros Hw. unfold getGroups.
  destruct (getGroups_filter g) as [e|f]; auto.
  unfold run_main. now rewrite getGroups_main_reads.
Qed.

Lemma createUser_nodup (o : obj) (e : env) (w : world) :
  world_nodup w -> world_nodup (snd (createUser o e w)).
Proof.
  apply keeps_run_main with (Q := any).
  keeps_step as newUser. keeps_step as response. now apply keeps_ret.
Qed.

Lemma createGroup_nodup (o : obj) (e : env) (w : world) :
  world_nodup w -> world_nodup (snd (createGroup o e w)).
Proof.
  apply keeps_run_main with (Q := any).
  keeps_step as newGroup. keeps_step as created. now apply keeps_ret.
Qed.

Lemma deleteUser_nodup (id : string) (e : env) (w : world) :
  world_nodup w -> world_nodup (snd (deleteUser id e w)).
Proof.
  apply keeps_run_main with (Q := any).
  keeps_step as wh. keeps_step as [user|]; [|apply keeps_throw].
  eapply keeps_bind; [apply keeps_groupSchema_findMany|]. intros groups Hg.
  eapply keeps_bind.
  - apply keeps_for_each with (P := fun g => NoDup (members g)); [|exact Hg].
    intros g. apply keeps_prune_group.
  - intros _ _. keeps_step as wh'. auto with keeps.
Qed.

Lemma modifyUser_nodup (id : string) (a : obj) (e : env) (w : world) :
  world_nodup w -> world_nodup (snd (modifyUser id a e w)).
Proof.
  apply keeps_run_main with (Q := any).
  keeps_step as updatedUser. keeps_step as wh.
  keeps_step as [user|]; [|apply keeps_throw].
  keeps_step as wh'. auto with keeps.
Qed.

Lemma deleteGroup_nodup (id : string) (e : env) (w : world) :
  world_nodup w -> world_nodup (snd (deleteGroup id e w)).
Proof.
  apply keeps_run_main with (Q := any).
  keeps_step as wh. keeps_step as [g|]; [|apply keeps_throw].
  keeps_step as wh'. auto with keeps.
Qed.

Lemma modifyGroup_nodup (id : string) (a : group_attrObj) (e : env)
  (w : world) :
  world_nodup w -> world_nodup (snd (modifyGroup id a e w)).
Proof.
  apply keeps_run_main with (Q := any).
  keeps_step as updatedGroup. keeps_step as wh.
  eapply keeps_bind; [apply keeps_groupSchema_findUnique|].
  intros [g|] Hg; [|apply keeps_throw].
  eapply keeps_bind; [apply keeps_applyMembershipEdits; now apply Hg|].
  intros nm Hnm. keeps_step as wh'.
  apply keeps_catch. now apply keeps_groupSchema_update.
Qed.

(** C4: if no member list has a duplicate (in the documents and in the
    updates still pending), then after any of the eight operations none
    has, and none has after any of the pending updates have landed. *)
Theorem operations_preserve_nodup (r : request) (e : env) (w : world) :
  world_nodup w ->
  world_nodup (step r e w)
  /\ forall ps,
       incl ps (pending (step r e w)) ->
       members_nodup (land_all ps (db (step r e w))).
Proof.
  intros Hw.
  assert (H : world_nodup (step r e w)).
  { destruct r; simpl;
      auto using getUsers_nodup, getGroups_nodup, createUser_nodup,
        createGroup_nodup, deleteUser_nodup, modifyUser_nodup,
        deleteGroup_nodup, modifyGroup_nodup. }
  split; auto. intros ps Hps. destruct H as [Hd Hp].
  apply land_all_nodup; auto.
  rewrite Forall_forall in *. auto.
Qed.

Lemma operations_preserve_nodup_witness :
  let r := ModifyGroup "g2" (mkAttrObj [] (Some [add_edit "alice"])) in
  world_nodup (step r no_fault carol_gone)
  /\ forall ps,
       incl ps (pending (step r no_fault carol_gone)) ->
       members_nodup (land_all ps (db (step r no_fault carol_gone))).
Proof.
  apply (operations_preserve_nodup
           (ModifyGroup "g2" (mkAttrObj [] (Some [add_edit "alice"])))
           no_fault carol_gone).
  split; repeat constructor; simpl; intuition discriminate.
Defined.

(* ================================================================= *)
(** ** Deleting a user *)

Lemma update_first_split {A : Type} (p : A -> bool) (f : A -> A)
  (l l' : list A) :
  update_first p f l = Some l' ->
  exists l1 x l2,
    l = l1 ++ x :: l2 /\ l' = l1 ++ f x :: l2 /\ p x = true
    /\ forall y, In y l1 -> p y = false.
Proof.
  revert l'. induction l as [|y l IH]; intros l' H; simpl in *;
    try discriminate.
  destruct (p y) eqn:Py.
  - injection H as <-. exists [], y, l. simpl. intuition.
  - destruct (update_first p f l) as [l0|]; try discriminate.
    injection H as <-.
    destruct (IH l0 eq_refl) as (l1 & x & l2 & -> & -> & Px & Hl1).
    exists (y :: l1), x, l2. simpl. intuition. now subst.
Qed.

Lemma update_first_none {A : Type} (p : A -> bool) (f : A -> A)
  (l : list A) :
  update_first p f l = None -> forall y, In y l -> p y = false.
Proof.
  induction l as [|x l IH]; simpl; intros H y Hy; [contradiction|].
  destruct (p x) eqn:Px; try discriminate.
  destruct (update_first p f l); try discriminate.
  destruct Hy as [<-|Hy]; auto.
Qed.

Lemma filter_nil {A : Type} (p : A -> bool) (l : list A) :
  (forall x, In x l -> p x = false) -> filter p l = [].
Proof.
  induction l as [|x l IH]; simpl; intros H; auto.
  rewrite (H x) by auto. auto.
Qed.

Lemma not_in_filter_neq (k : string) (l : list string) :
  ~ In k (filter (fun item => negb (String.eqb item k)) l).
Proof.
  intros H. apply filter_In in H as [_ H].
  now rewrite String.eqb_refl in H.
Qed.

Lemma has_member (k : string) (g : group_row) :
  group_matches (Some (WMembersHas (VStr k))) g = true <-> In k (members g).
Proof.
  simpl. rewrite existsb_exists. split.
  - intros (m & Hm & E). apply String.eqb_eq in E. now subst.
  - intros H. exists k. split; auto. apply String.eqb_refl.
Qed.

(** One pending prune lands: the group it names no longer lists [k], the
    other groups are as they were. *)
Lemma land_prune (k id : string) (ms : list string) (st : store) :
  NoDup (map gid (groups st)) ->
  ~ In k ms ->
  let st' := land st (mkPending (WFields [("id", VStr id)]) ms) in
  users st' = users st
  /\ map gid (groups st') = map gid (groups st)
  /\ forall g', In g' (groups st') ->
       In k (members g') -> In g' (groups st) /\ gid g' <> id.
Proof.
  intros Hnd Hms. unfold land, update_group. cbn [upd_where upd_members].
  destruct (update_first _ _ (groups st)) as [gs|] eqn:Hu; simpl.
  - apply update_first_split in Hu
      as (l1 & x & l2 & Hl & -> & Px & Hl1).
    rewrite group_matches_id in Px. apply String.eqb_eq in Px.
    rewrite Hl in *. split; [reflexivity|]. split.
    + now rewrite !map_app.
    + intros g' Hg' Hk. apply in_app_iff in Hg' as [Hg'|[<-|Hg']].
      * split; [apply in_app_iff; auto|].
        specialize (Hl1 g' Hg'). rewrite group_matches_id in Hl1.
        now apply String.eqb_neq in Hl1.
      * simpl in Hk. contradiction.
      * split; [apply in_app_iff; simpl; auto|].
        rewrite map_app in Hnd. simpl in Hnd.
        apply NoDup_remove_2 in Hnd. intros E. apply Hnd.
        apply in_app_iff. right. rewrite Px, <- E. now apply in_map.
  - split; [reflexivity|]. split; [reflexivity|].
    intros g' Hg' Hk. split; auto.
    pose proof (update_first_none _ _ _ Hu g' Hg') as Hn.
    rewrite group_matches_id in Hn. now apply String.eqb_neq in Hn.
Qed.

Lemma land_all_prunes (k : string) (gs : list group_row) (user : user_row)
  (st : store) :
  uid user = k ->
  NoDup (map gid (groups st)) ->
  (forall g, In g (groups st) -> In k (members g) ->
             In (gid g) (map gid gs)) ->
  no_member k (land_all (map (prune_update user) gs) st).
Proof.
  intros <-. revert st. induction gs as [|g0 gs IH]; intros st Hnd Hcov.
  - simpl. intros g Hg Hk. exact (Hcov g Hg Hk).
  - simpl.
    destruct (land_prune (uid user) (gid g0)
                (filter (fun item => negb (String.eqb item (uid user)))
                        (members g0))
                st Hnd (not_in_filter_neq _ _)) as (_ & Hgid & Hrest).
    apply IH.
    + unfold prune_update. now rewrite Hgid.
    + intros g Hg Hk. destruct (Hrest g Hg Hk) as [Hin Hne].
      destruct (Hcov g Hin Hk) as [E|Hin']; [congruence|exact Hin'].
Qed.

(** C2 at its failing input: alice (u1) is a member of the group g1.
    deleteUser resolves and the user is gone, but the update that prunes
    u1 from g1 was started inside [forEach] and nothing awaits it: the
    operation resolves with the update pending, and until it lands g1
    lists u1 and the membership query for u1 returns g1. *)
Theorem deleteUser_resolves_before_prune :
  let w' := snd (deleteUser "alice" no_fault sample) in
  fst (deleteUser "alice" no_fault sample) = Resolved tt
  /\ users (db w') = [bob]
  /\ groups (db w') = [eng]
  /\ In "u1" (members eng)
  /\ pending w' = [prune_update alice eng]
  /\ fst (@listGroupsFor error (VStr "u1") w') = inr [eng].
Proof. repeat split. simpl. auto. Qed.

(** X15: once every prune that a resolved deleteUser has started has
    landed, no group lists the user's key and the membership query for
    it returns nothing. *)
Theorem deleteUser_prune_lands (id : string) (e : env) (w : world)
  (user : user_row) :
  NoDup (map gid (groups (db w))) ->
  pending w = [] ->
  find (user_named id) (users (db w)) = Some user ->
  fst (deleteUser id e w) = Resolved tt ->
  let w' := snd (deleteUser id e w) in
  let st := land_all (pending w') (db w') in
  no_member (uid user) st
  /\ fst (@listGroupsFor error (VStr (uid user)) (with_db st w')) = inr [].
Proof.
  intros Hnd Hp Hf H w' st.
  assert (Hno : no_member (uid user) st).
  { subst st w'. rewrite (deleteUser_found _ _ _ _ Hf) in *.
    destruct (fault e); try discriminate.
    destruct (delete_first _ _) as [us|]; try discriminate.
    cbn [snd with_db db pending]. rewrite Hp. cbn [app].
    apply land_all_prunes; auto.
    intros g Hg Hk. apply in_map. apply filter_In. split; auto.
    now apply has_member. }
  split; auto. unfold listGroupsFor, groupSchema_findMany.
  cbn [fst with_db db]. f_equal. apply filter_nil.
  intros g Hg. destruct (group_matches _ g) eqn:E; auto.
  apply has_member in E. now apply Hno in E.
Qed.

Lemma deleteUser_prune_lands_witness :
  let w' := snd (deleteUser "alice" no_fault sample) in
  let st := land_all (pending w') (db w') in
  no_member (uid alice) st
  /\ fst (@listGroupsFor error (VStr (uid alice)) (with_db st w')) = inr [].
Proof.
  apply (deleteUser_prune_lands "alice" no_fault sample alice).
  - repeat constructor. simpl. intuition.
  - reflexivity.
  - reflexivity.
  - reflexivity.
Defined.

(* ================================================================= *)
(** ** The read methods change nothing and list what is stored *)

Lemma read_only_after {A : Type} (a : outcome A) (l : list call) (w : world) :
  existsb is_mutation l = false -> read_only w (a, after l w).
Proof. intros H. repeat split. now exists l. Qed.

Lemma read_only_same {A : Type} (a : outcome A) (w : world) :
  read_only w (a, w).
Proof. repeat split. exists []. now rewrite app_nil_r. Qed.

Lemma getUsers_keeps_db (g : getObj) (w : world) :
  db (snd (getUsers g w)) = db w.
Proof.
  destruct (getUsers_filter g) as [e|[f|]] eqn:Hf.
  - unfold getUsers. now rewrite Hf.
  - now rewrite (getUsers_resolves g f w Hf).
  - unfold getUsers. now rewrite Hf.
Qed.

Lemma getGroups_keeps_db (g : getObj) (w : world) :
  db (snd (getGroups g w)) = db w.
Proof.
  destruct (getGroups_filter g) as [e|f] eqn:Hf.
  - unfold getGroups. now rewrite Hf.
  - now rewrite (getGroups_resolves g f w Hf).
Qed.

(** X1: getUsers and getGroups change no document, leave no update
    pending and make no mutating call on the store, whatever the filter
    and however they end. *)
Theorem reads_leave_store_alone (g : getObj) (w : world) :
  read_only w (getUsers g w) /\ read_only w (getGroups g w).
Proof.
  split.
  - destruct (getUsers_filter g) as [e|[f|]] eqn:Hf.
    + unfold getUsers. rewrite Hf. apply read_only_same.
    + rewrite (getUsers_resolves g f w Hf). apply read_only_after.
      simpl. now apply existsb_concat_map.
    + unfold getUsers. rewrite Hf. apply read_only_same.
  - destruct (getGroups_filter g) as [e|f] eqn:Hf.
    + unfold getGroups. rewrite Hf. apply read_only_same.
    + rewrite (getGroups_resolves g f w Hf). apply read_only_after.
      simpl. now apply existsb_concat_map.
Qed.

Lemma group_ref_of_entry (g : group_row) : group_ref_of g = group_entry g.
Proof.
  unfold group_ref_of, group_entry.
  now rewrite inbound_group_id, inbound_group_displayName.
Qed.

Lemma has_lists (k : string) (g : group_row) :
  group_matches (Some (WMembersHas (VStr k))) g = lists k g.
Proof.
  unfold lists, includes. simpl.
  induction (members g) as [|m ms IH]; simpl; auto.
  now rewrite IH, String.eqb_sym.
Qed.

(** X4: getUsers returns one resource per user that the store selects
    for the filter, in store order.  The resource of a user carries that
    user's stored name as [userName] and as [id], and its [groups] are
    the stored groups whose member list holds that user's key, in the
    order of the store, each as its key and its name. *)
Theorem getUsers_groups_attached (g : getObj) (w : world)
  (rs : list user_resource) :
  fst (getUsers g w) = Resolved rs ->
  exists f,
    getUsers_filter g = inr (Some f)
    /\ Forall2
         (fun row r =>
            get (user_attrs r) "userName" = user_name row
            /\ get (user_attrs r) "id" = user_name row
            /\ res_groups r
               = map group_entry (filter (lists (uid row)) (groups (db w))))
         (filter (user_matches (Some (WFields f))) (users (db w))) rs.
Proof.
  destruct (getUsers_filter g) as [e|[f|]] eqn:Hf;
    try (unfold getUsers; rewrite Hf; discriminate).
  rewrite (getUsers_resolves g f w Hf). cbn [fst]. intros [= <-].
  exists f. split; [reflexivity|].
  induction (filter (user_matches (Some (WFields f))) (users (db w)))
    as [|row rows IH]; cbn [map]; constructor; auto.
  split; [apply user_resource_userName|].
  split; [apply user_resource_id|].
  unfold user_resource_of. cbn [res_groups].
  rewrite inbound_user_id.
  rewrite (filter_ext _ (lists (uid row))) by (intros; apply has_lists).
  apply map_ext. apply group_ref_of_entry.
Qed.

Lemma getUsers_groups_attached_witness :
  exists f,
    getUsers_filter no_filter = inr (Some f)
    /\ Forall2
         (fun row r =>
            get (user_attrs r) "userName" = user_name row
            /\ get (user_attrs r) "id" = user_name row
            /\ res_groups r
               = map group_entry
                     (filter (lists (uid row)) (groups (db carol_gone))))
         (filter (user_matches (Some (WFields f))) (users (db carol_gone)))
         [mkUserResource [("id", VStr "alice"); ("userName", VStr "alice")]
                         [];
          mkUserResource [("id", VStr "bob"); ("userName", VStr "bob")]
                         [mkRef (VStr "g2") (VStr "ops")]].
Proof.
  apply (getUsers_groups_attached no_filter carol_gone). reflexivity.
Defined.

(* ================================================================= *)
(** ** Creating users and groups *)

Lemma lookup_outbound (rules : list rule) (o acc res : obj) (f : string) :
  outbound rules o acc = Some res ->
  lookup res f = outbound_lookup rules o f (lookup acc f).
Proof.
  revert acc. induction rules as [|r rs IH]; intros acc H; simpl in *.
  - now injection H as <-.
  - destruct (lookup o (mapTo r)) as [v|].
    + destruct (coerce (rtype r) v) as [v'|]; try discriminate.
      rewrite (IH _ H). destruct (String.eqb (field r) f) eqn:E.
      * apply String.eqb_eq in E. subst f. now rewrite lookup_set_same.
      * apply String.eqb_neq in E. now rewrite lookup_set_other.
    + rewrite (IH _ H). now destruct (String.eqb (field r) f).
Qed.

Lemma outbound_userName (o data : obj) (v : value) :
  endpointMapper Outbound o config_map_user = Some data ->
  lookup o "userName" = Some v ->
  lookup data "username" = Some v.
Proof.
  intros H Hv. unfold endpointMapper in H.
  rewrite (lookup_outbound _ _ _ _ _ H). cbn. now rewrite Hv.
Qed.

Lemma outbound_no_userName (o data : obj) :
  endpointMapper Outbound o config_map_user = Some data ->
  lookup o "userName" = None ->
  lookup data "username" = None.
Proof.
  intros H Hv. unfold endpointMapper in H.
  rewrite (lookup_outbound _ _ _ _ _ H). cbn. now rewrite Hv.
Qed.

Lemma no_name_no_clash (wh : where_clause) (data : obj) (us : list user_row) :
  lookup data "username" = None -> name_clash wh data us = false.
Proof.
  intros H. unfold name_clash, name_taken, get. rewrite H.
  now destruct (find _ us).
Qed.

Section DeleteFirst.
Context {A : Type}.
Variable p : A -> bool.

Lemma delete_first_split (l l' : list A) :
  delete_first p l = Some l' ->
  exists l1 x l2,
    l = l1 ++ x :: l2 /\ l' = l1 ++ l2 /\ p x = true
    /\ forall y, In y l1 -> p y = false.
Proof.
  revert l'. induction l as [|y l IH]; intros l' H; simpl in *;
    try discriminate.
  destruct (p y) eqn:Py.
  - injection H as <-. exists [], y, l. simpl. intuition.
  - destruct (delete_first p l) as [l0|]; try discriminate.
    injection H as <-.
    destruct (IH l0 eq_refl) as (l1 & x & l2 & -> & -> & Px & Hl1).
    exists (y :: l1), x, l2. simpl. intuition. now subst.
Qed.

Lemma delete_first_found (q : A -> bool) (l : list A) (x : A) :
  (forall y, p y = q y) -> find q l = Some x ->
  exists l', delete_first p l = Some l'.
Proof.
  intros Hpq. induction l as [|y l IH]; simpl; try discriminate.
  rewrite Hpq. destruct (q y); eauto.
  intros H. destruct (IH H) as [l' ->]. simpl. eauto.
Qed.
End DeleteFirst.

Lemma update_first_found' {A : Type} (p q : A -> bool) (f : A -> A)
  (l : list A) (x : A) :
  (forall y, p y = q y) -> find q l = Some x ->
  exists l', update_first p f l = Some l'.
Proof.
  intros Hpq. induction l as [|y l IH]; simpl; try discriminate.
  rewrite Hpq. destruct (q y); eauto.
  intros H. destruct (IH H) as [l' ->]. simpl. eauto.
Qed.

(** modifyUser when the user is found. *)
Lemma modifyUser_found (id : string) (a data : obj) (e : env) (w : world)
  (user : user_row) :
  find (user_named id) (users (db w)) = Some user ->
  endpointMapper Outbound a config_map_user = Some data ->
  let w1 := after [CFindUnique Users (by_name id);
                   CUpdate Users (by_name id)] w in
  modifyUser id a e w
  = match fault e with
    | Some err => (Formatted "modifyUser" (passthrough err), w1)
    | None =>
        if name_clash (by_name id) data (users (db w))
        then (Formatted "modifyUser" (passthrough P2002_username), w1)
        else
          match update_user (by_name id) data (db w) with
          | Some st => (Resolved tt, with_db st w1)
          | None => (Formatted "modifyUser" (passthrough P2025), w1)
          end
    end.
Proof.
  intros Hf Hd w1. unfold modifyUser, run_main, mapper.
  rewrite Hd, user_where.
  unfold bind, ret, userSchema_findUnique. fold (by_name id).
  rewrite find_user_by_name, Hf.
  unfold catch, userSchema_update, logged, with_db, formatError.
  subst w1. unfold after. cbn [db log pending]. rewrite <- !app_assoc.
  cbn [app].
  destruct (fault e); [reflexivity|].
  destruct (name_clash _ _ _); [reflexivity|].
  destruct (update_user _ _ _); reflexivity.
Qed.

Lemma createUser_runs (o data : obj) (e : env) (w : world) :
  endpointMapper Outbound o config_map_user = Some data ->
  let w1 := after [CCreate Users data] w in
  createUser o e w
  = match fault e with
    | Some err => (Formatted "createUser" (create_error err), w1)
    | None =>
        if includes (map uid (users (db w))) (new_key data e)
        then (Formatted "createUser" (create_error P2002), w1)
        else if name_taken data (users (db w))
        then (Formatted "createUser" (create_error P2002_username), w1)
        else
          let row := mkUser (new_key data e) data in
          (Resolved row,
           with_db (mkStore (users (db w) ++ [row]) (groups (db w))) w1)
    end.
Proof.
  intros Hd w1. unfold createUser, run_main, mapper. rewrite Hd.
  unfold bind, ret, catch, userSchema_create, formatError.
  destruct (fault e); [reflexivity|].
  destruct (includes _ _); [reflexivity|].
  destruct (name_taken _ _); reflexivity.
Qed.

Lemma createGroup_runs (o data : obj) (e : env) (w : world) :
  endpointMapper Outbound o config_map_group = Some data ->
  let w1 := after [CCreate Groups data] w in
  createGroup o e w
  = match fault e with
    | Some err => (Formatted "createGroup" (create_error err), w1)
    | None =>
        if includes (map gid (groups (db w))) (new_key data e)
        then (Formatted "createGroup" (create_error P2002), w1)
        else
          let row := mkGroup (new_key data e) data [] in
          (Resolved tt,
           with_db (mkStore (users (db w)) (groups (db w) ++ [row])) w1)
    end.
Proof.
  intros Hd w1. unfold createGroup, run_main, mapper. rewrite Hd.
  unfold bind, ret, catch, groupSchema_create, formatError.
  destruct (fault e); [reflexivity|].
  destruct (includes _ _); reflexivity.
Qed.

(** X8: when the store rejects the create call, createUser and
    createGroup report a duplicate key (with the store's meta) for code
    P2002 and a field error (meta and message) for any other code, and
    no document has changed. *)
Theorem create_rejection_reported (userObj groupObj : obj) (e : env)
  (w : world) (err : store_error) :
  fault e = Some err ->
  let reported :=
    if String.eqb (code err) "P2002" then DuplicateKey (meta err)
    else FieldError (meta err) (emessage err) in
  (fst (createUser userObj e w) = Formatted "createUser" reported
   /\ db (snd (createUser userObj e w)) = db w)
  /\ (fst (createGroup groupObj e w) = Formatted "createGroup" reported
      /\ db (snd (createGroup groupObj e w)) = db w).
Proof.
  intros He reported.
  destruct (mapper_user_total userObj) as [du Hu].
  destruct (mapper_group_total groupObj) as [dg Hg].
  rewrite (createUser_runs userObj du e w Hu).
  rewrite (createGroup_runs groupObj dg e w Hg), He.
  repeat split.
Qed.

Lemma create_rejection_reported_witness :
  let u := [("userName", VStr "alice")] in
  let g := [("displayName", VStr "eng")] in
  (fst (createUser u (rejected "P2002") sample)
   = Formatted "createUser" (DuplicateKey "{}")
   /\ db (snd (createUser u (rejected "P2002") sample)) = db sample)
  /\ (fst (createGroup g (rejected "P2002") sample)
      = Formatted "createGroup" (DuplicateKey "{}")
      /\ db (snd (createGroup g (rejected "P2002") sample)) = db sample).
Proof.
  apply (create_rejection_reported [("userName", VStr "alice")]
           [("displayName", VStr "eng")] (rejected "P2002") sample
           (mkStoreError "P2002" "{}" "connection lost")).
  reflexivity.
Defined.

(** X10: a group that createGroup has created is appended with an empty
    member list, whatever the input, and is listed without members; the
    users are untouched. *)
Theorem createGroup_starts_empty (o : obj) (e : env) (w : world) :
  fst (createGroup o e w) = Resolved tt ->
  let w' := snd (createGroup o e w) in
  users (db w') = users (db w)
  /\ pending w' = pending w
  /\ exists row,
       groups (db w') = groups (db w) ++ [row]
       /\ members row = []
       /\ res_members (group_resource_of (db w') row) = [].
Proof.
  destruct (mapper_group_total o) as [dg Hg].
  rewrite (createGroup_runs o dg e w Hg).
  destruct (fault e); try discriminate.
  destruct (includes _ _); try discriminate.
  intros _. cbn [snd with_db db pending after]. repeat split.
  eexists. split; [reflexivity|]. split; [reflexivity|].
  unfold group_resource_of. cbn [members res_members users].
  now rewrite filter_nil.
Qed.

Lemma createGroup_starts_empty_witness :
  let o := [("displayName", VStr "ops")] in
  let w' := snd (createGroup o (mkEnv "g2" None) sample) in
  users (db w') = users (db sample)
  /\ pending w' = pending sample
  /\ exists row,
       groups (db w') = groups (db sample) ++ [row]
       /\ members row = []
       /\ res_members (group_resource_of (db w') row) = [].
Proof.
  apply (createGroup_starts_empty [("displayName", VStr "ops")]
           (mkEnv "g2" None) sample).
  reflexivity.
Defined.

Lemma name_taken_named (data : obj) (n : string) (us : list user_row) :
  lookup data "username" = Some (VStr n) ->
  name_taken data us = existsb (user_named n) us.
Proof.
  intros H. unfold name_taken, get. rewrite H. reflexivity.
Qed.

Lemma find_appended (n : string) (us : list user_row) (row : user_row) :
  existsb (user_named n) us = false ->
  user_named n row = true ->
  find (user_named n) (us ++ [row]) = Some row.
Proof.
  intros Hus Hrow. induction us as [|u us IH]; cbn [app find].
  - now rewrite Hrow.
  - cbn [existsb] in Hus. apply Bool.orb_false_iff in Hus as [Hu Hus].
    rewrite Hu. auto.
Qed.

(** X9: a user that createUser has created is appended to the users and
    the groups are untouched; no stored user carried its userName
    before, a lookup by that userName now finds exactly the new
    document, and creating the same userName again is reported as a
    duplicate key and changes no document. *)
Theorem createUser_then_present (o : obj) (e : env) (w : world)
  (row : user_row) (n : string) :
  fst (createUser o e w) = Resolved row ->
  lookup o "userName" = Some (VStr n) ->
  let w' := snd (createUser o e w) in
  users (db w') = users (db w) ++ [row]
  /\ groups (db w') = groups (db w)
  /\ user_absent (db w) n
  /\ find (user_named n) (users (db w')) = Some row
  /\ forall e2, fault e2 = None ->
       (exists m, fst (createUser o e2 w')
                  = Formatted "createUser" (DuplicateKey m))
       /\ db (snd (createUser o e2 w')) = db w'.
Proof.
  destruct (mapper_user_total o) as [du Hu].
  rewrite (createUser_runs o du e w Hu).
  intros Hres Hn. pose proof (outbound_userName o du (VStr n) Hu Hn) as Hdn.
  rewrite (name_taken_named du n _ Hdn) in *.
  destruct (fault e); try discriminate.
  destruct (includes _ _); try discriminate.
  destruct (existsb (user_named n) (users (db w))) eqn:Hnone;
    try discriminate.
  cbn [fst snd with_db db users groups] in *. injection Hres as <-.
  assert (Hrow : user_named n (mkUser (new_key du e) du) = true).
  { unfold user_named, get. cbn [user_doc uid ufields lookup].
    cbn. rewrite Hdn. apply String.eqb_refl. }
  assert (Hfind : find (user_named n)
                    (users (db w) ++ [mkUser (new_key du e) du])
                  = Some (mkUser (new_key du e) du))
    by now apply find_appended.
  repeat split; auto.
  - intros u Hin. destruct (user_named n u) eqn:E; auto.
    rewrite <- Hnone. symmetry. apply existsb_exists. eauto.
  - rewrite (createUser_runs o du e2 _ Hu), H.
    cbn [db with_db after users].
    destruct (includes _ _); [eexists; reflexivity|].
    rewrite (name_taken_named du n _ Hdn).
    replace (existsb (user_named n) _) with true; [eexists; reflexivity|].
    symmetry. apply existsb_exists. eexists. split; [|exact Hrow].
    apply in_app_iff. right. now left.
  - rewrite (createUser_runs o du e2 _ Hu), H.
    cbn [db with_db after users].
    destruct (includes _ _); [reflexivity|].
    rewrite (name_taken_named du n _ Hdn).
    replace (existsb (user_named n) _) with true; [reflexivity|].
    symmetry. apply existsb_exists. eexists. split; [|exact Hrow].
    apply in_app_iff. right. now left.
Qed.

Lemma createUser_then_present_witness :
  let o := [("userName", VStr "carol"); ("active", VBool true)] in
  let row := mkUser "u3" [("username", VStr "carol"); ("active", VBool true)] in
  let w' := snd (createUser o (mkEnv "u3" None) sample) in
  users (db w') = users (db sample) ++ [row]
  /\ groups (db w') = groups (db sample)
  /\ user_absent (db sample) "carol"
  /\ find (user_named "carol") (users (db w')) = Some row
  /\ forall e2, fault e2 = None ->
       (exists m, fst (createUser o e2 w')
                  = Formatted "createUser" (DuplicateKey m))
       /\ db (snd (createUser o e2 w')) = db w'.
Proof.
  apply (createUser_then_present
           [("userName", VStr "carol"); ("active", VBool true)]
           (mkEnv "u3" None) sample
           (mkUser "u3" [("username", VStr "carol"); ("active", VBool true)])
           "carol"); reflexivity.
Defined.

(* ================================================================= *)
(** ** Returned ids address the documents *)

Section FirstMatch.
Context {A : Type}.
Variable p : A -> bool.
Variables (l1 l2 : list A) (x : A).
Hypothesis none_before : forall y, In y l1 -> p y = false.
Hypothesis hit : p x = true.

Lemma find_at_first : find p (l1 ++ x :: l2) = Some x.
Proof.
  induction l1 as [|y l IH]; cbn [app find].
  - now rewrite hit.
  - rewrite none_before by now left. apply IH.
    intros z Hz. apply none_before. now right.
Qed.

Lemma delete_first_at_first : delete_first p (l1 ++ x :: l2) = Some (l1 ++ l2).
Proof.
  induction l1 as [|y l IH]; cbn [app delete_first].
  - now rewrite hit.
  - rewrite none_before by now left. rewrite IH; auto.
    intros z Hz. apply none_before. now right.
Qed.

Lemma update_first_at_first (f : A -> A) :
  update_first p f (l1 ++ x :: l2) = Some (l1 ++ f x :: l2).
Proof.
  induction l1 as [|y l IH]; cbn [app update_first].
  - now rewrite hit.
  - rewrite none_before by now left. rewrite IH; auto.
    intros z Hz. apply none_before. now right.
Qed.
End FirstMatch.

(** Names being unique, a stored user splits the users into those before
    it, none of which carries its name, and those after it. *)
Lemma user_split (n : string) (us : list user_row) (row : user_row) :
  NoDup (map user_name us) -> In row us -> user_name row = VStr n ->
  exists before after,
    us = before ++ row :: after
    /\ forall y, In y before -> user_named n y = false.
Proof.
  intros Hnd Hin Hn. apply in_split in Hin as (l1 & l2 & ->).
  exists l1, l2. split; auto. intros y Hy.
  destruct (user_named n y) eqn:E; auto. exfalso.
  apply user_named_name in E. rewrite map_app in Hnd. cbn [map] in Hnd.
  apply NoDup_remove_2 in Hnd. apply Hnd. apply in_app_iff. left.
  rewrite Hn, <- E. now apply in_map.
Qed.

Lemma group_split (gs : list group_row) (row : group_row) :
  NoDup (map gid gs) -> In row gs ->
  exists before after,
    gs = before ++ row :: after
    /\ forall y, In y before -> group_keyed (gid row) y = false.
Proof.
  intros Hnd Hin. apply in_split in Hin as (l1 & l2 & ->).
  exists l1, l2. split; auto. intros y Hy.
  destruct (group_keyed (gid row) y) eqn:E; auto. exfalso.
  apply String.eqb_eq in E. rewrite map_app in Hnd. cbn [map] in Hnd.
  apply NoDup_remove_2 in Hnd. apply Hnd. apply in_app_iff. left.
  rewrite <- E. now apply in_map.
Qed.

(** X5: user names being unique, the [id] that getUsers returns in the
    resource of a user addresses the very document the resource was
    built from.  That document carries the id as its name; the store
    accepting the call, deleteUser called with the id resolves and
    removes that document and no other, and modifyUser called with it
    and attributes other than the userName resolves and rewrites that
    document, with the mapped attributes, and no other. *)
Theorem returned_user_id_is_accepted (g : getObj) (w : world)
  (rs : list user_resource) (r : user_resource) (n : string) (a : obj)
  (e : env) :
  NoDup (map user_name (users (db w))) ->
  fst (getUsers g w) = Resolved rs ->
  In r rs ->
  get (user_attrs r) "id" = VStr n ->
  lookup a "userName" = None ->
  fault e = None ->
  let w' := snd (getUsers g w) in
  exists row before after data,
    r = user_resource_of (db w) row
    /\ user_name row = VStr n
    /\ users (db w') = before ++ row :: after
    /\ fst (deleteUser n e w') = Resolved tt
    /\ users (db (snd (deleteUser n e w'))) = before ++ after
    /\ endpointMapper Outbound a config_map_user = Some data
    /\ fst (modifyUser n a e w') = Resolved tt
    /\ users (db (snd (modifyUser n a e w')))
       = before ++ write_user data row :: after.
Proof.
  intros Hnd H Hr Hid Ha He w'.
  assert (Hdb : db w' = db w) by apply getUsers_keeps_db.
  clearbody w'.
  destruct (getUsers_filter g) as [err|[f|]] eqn:Hf;
    try (unfold getUsers in H; rewrite Hf in H; discriminate).
  rewrite (getUsers_resolves g f w Hf) in H. cbn [fst] in H.
  injection H as <-.
  apply in_map_iff in Hr as (row & <- & Hrow).
  apply filter_In in Hrow as [Hrow _].
  rewrite user_resource_id in Hid.
  destruct (user_split n _ row Hnd Hrow Hid) as (l1 & l2 & Hl & Hl1).
  assert (Hp : user_named n row = true) by now apply user_named_name.
  assert (Hq : forall y, In y l1 ->
                         user_matches (Some (by_name n)) y = false).
  { intros y Hy. unfold by_name. rewrite user_matches_name. auto. }
  assert (Hq' : user_matches (Some (by_name n)) row = true).
  { unfold by_name. now rewrite user_matches_name. }
  destruct (mapper_user_total a) as [data Hd].
  assert (Hfind : find (user_named n) (users (db w')) = Some row).
  { rewrite Hdb, Hl. now apply find_at_first. }
  exists row, l1, l2, data.
  rewrite (deleteUser_found n e w' row Hfind).
  rewrite (modifyUser_found n a data e w' row Hfind Hd).
  rewrite He, (no_name_no_clash _ data _ (outbound_no_userName a data Hd Ha)).
  unfold update_user. rewrite Hdb, Hl.
  rewrite (delete_first_at_first _ l1 l2 row Hq Hq').
  rewrite (update_first_at_first _ l1 l2 row Hq Hq').
  cbn [fst snd with_db db users option_map]. repeat split; auto.
Qed.

Lemma returned_user_id_is_accepted_witness :
  let w' := snd (getUsers no_filter sample) in
  let a := [("active", VBool false)] in
  exists row before after data,
    user_resource_of (db sample) bob = user_resource_of (db sample) row
    /\ user_name row = VStr "bob"
    /\ users (db w') = before ++ row :: after
    /\ fst (deleteUser "bob" no_fault w') = Resolved tt
    /\ users (db (snd (deleteUser "bob" no_fault w'))) = before ++ after
    /\ endpointMapper Outbound a config_map_user = Some data
    /\ fst (modifyUser "bob" a no_fault w') = Resolved tt
    /\ users (db (snd (modifyUser "bob" a no_fault w')))
       = before ++ write_user data row :: after.
Proof.
  apply (returned_user_id_is_accepted no_filter sample
           (map (user_resource_of (db sample)) [alice; bob])
           (user_resource_of (db sample) bob)).
  - simpl. repeat constructor; simpl; intuition discriminate.
  - reflexivity.
  - right. left. reflexivity.
  - reflexivity.
  - reflexivity.
  - reflexivity.
Defined.

(** X6: group keys being unique, the [id] that getGroups returns in the
    resource of a group is the key of the very document the resource
    was built from.  The store accepting the call, deleteGroup called
    with the id resolves and removes that document and no other, and
    modifyGroup called with it and member edits that all resolve
    rewrites that document and no other: its attributes with the mapped
    ones, its member list with the result of the member loop run on that
    document's members. *)
Theorem returned_group_id_is_accepted (g : getObj) (w : world)
  (rs : list group_resource) (r : group_resource) (k : string)
  (a : group_attrObj) (es : list (option string * string)) (e : env) :
  NoDup (map gid (groups (db w))) ->
  fst (getGroups g w) = Resolved rs ->
  In r rs ->
  get (group_attrs r) "id" = VStr k ->
  fault e = None ->
  let w' := snd (getGroups g w) in
  resolve_all (db w') (edits_of a) = Some es ->
  exists row before after data,
    r = group_resource_of (db w) row
    /\ gid row = k
    /\ groups (db w') = before ++ row :: after
    /\ fst (deleteGroup k e w') = Resolved tt
    /\ groups (db (snd (deleteGroup k e w'))) = before ++ after
    /\ endpointMapper Outbound (attrs a) config_map_group = Some data
    /\ fst (modifyGroup k a e w') = Resolved tt
    /\ groups (db (snd (modifyGroup k a e w')))
       = before
           ++ write_group (del data "id")
                (Some (current (run_loop (mkLoop (members row) SameArray) es)))
                row
           :: after.
Proof.
  intros Hnd H Hr Hid He w'.
  assert (Hdb : db w' = db w) by apply getGroups_keeps_db.
  clearbody w'. intros Hes.
  destruct (getGroups_filter g) as [err|f] eqn:Hf;
    try (unfold getGroups in H; rewrite Hf in H; discriminate).
  rewrite (getGroups_resolves g f w Hf) in H. cbn [fst] in H.
  injection H as <-.
  apply in_map_iff in Hr as (row & <- & Hrow).
  apply filter_In in Hrow as [Hrow _].
  rewrite group_resource_id in Hid. injection Hid as <-.
  destruct (group_split _ row Hnd Hrow) as (l1 & l2 & Hl & Hl1).
  assert (Hp : group_keyed (gid row) row = true) by apply String.eqb_refl.
  assert (Hq : forall y, In y l1 ->
                         group_matches (Some (by_key (gid row))) y = false).
  { intros y Hy. unfold by_key. rewrite group_matches_key. auto. }
  assert (Hq' : group_matches (Some (by_key (gid row))) row = true).
  { unfold by_key. now rewrite group_matches_key. }
  destruct (mapper_group_total (attrs a)) as [data Hd].
  assert (Hfind : find (group_keyed (gid row)) (groups (db w')) = Some row).
  { rewrite Hdb, Hl. now apply find_at_first. }
  exists row, l1, l2, data.
  rewrite (deleteGroup_found (gid row) e w' row Hfind).
  rewrite (modifyGroup_found (gid row) a e w' row data es Hfind Hd Hes).
  rewrite He. unfold update_group. rewrite Hdb, Hl.
  rewrite (delete_first_at_first _ l1 l2 row Hq Hq').
  rewrite (update_first_at_first _ l1 l2 row Hq Hq').
  cbn [fst snd with_db db groups option_map]. repeat split; auto.
Qed.

Lemma returned_group_id_is_accepted_witness :
  let w' := snd (getGroups no_filter carol_gone) in
  let a := mkAttrObj [("displayName", VStr "dev")]
                     (Some [delete_edit "bob"; add_edit "alice"]) in
  let es := [(Some "delete", "u2"); (Some "add", "u1")] in
  exists row before after data,
    group_resource_of (db carol_gone) (mkGroup "g2" [("name", VStr "ops")]
                                               ["u2"; "u9"])
    = group_resource_of (db carol_gone) row
    /\ gid row = "g2"
    /\ groups (db w') = before ++ row :: after
    /\ fst (deleteGroup "g2" no_fault w') = Resolved tt
    /\ groups (db (snd (deleteGroup "g2" no_fault w'))) = before ++ after
    /\ endpointMapper Outbound (attrs a) config_map_group = Some data
    /\ fst (modifyGroup "g2" a no_fault w') = Resolved tt
    /\ groups (db (snd (modifyGroup "g2" a no_fault w')))
       = before
           ++ write_group (del data "id")
                (Some (current (run_loop (mkLoop (members row) SameArray) es)))
                row
           :: after.
Proof.
  apply (returned_group_id_is_accepted no_filter carol_gone
           (map (group_resource_of (db carol_gone)) (groups (db carol_gone)))
           (group_resource_of (db carol_gone)
              (mkGroup "g2" [("name", VStr "ops")] ["u2"; "u9"]))).
  - simpl. repeat constructor; simpl; intuition.
  - reflexivity.
  - left. reflexivity.
  - reflexivity.
  - reflexivity.
  - reflexivity.
Defined.

(** X11: a modifyUser that resolves has rewritten one document, the
    first user of that name, with the mapped attributes; the other
    users, every key, the groups and the pending updates are as before. *)
Theorem modifyUser_rewrites_one (id : string) (a : obj) (e : env)
  (w : world) :
  fst (modifyUser id a e w) = Resolved tt ->
  let w' := snd (modifyUser id a e w) in
  groups (db w') = groups (db w)
  /\ pending w' = pending w
  /\ map uid (users (db w')) = map uid (users (db w))
  /\ exists before user data after,
       users (db w) = before ++ user :: after
       /\ users (db w') = before ++ write_user data user :: after
       /\ user_named id user = true
       /\ (forall u, In u before -> user_named id u = false)
       /\ endpointMapper Outbound a config_map_user = Some data.
Proof.
  intros H.
  destruct (find (user_named id) (users (db w))) as [user|] eqn:Hf.
  - destruct (mapper_user_total a) as [data Hd].
    rewrite (modifyUser_found _ _ _ _ _ _ Hf Hd) in *.
    destruct (fault e); try discriminate.
    destruct (name_clash _ _ _); try discriminate.
    unfold update_user in *.
    destruct (update_first _ _ (users (db w))) as [us|] eqn:Hu;
      try discriminate.
    apply update_first_split in Hu as (l1 & x & l2 & Hl & -> & Px & Hl1).
    cbn [snd with_db db pending after option_map users groups].
    unfold by_name in Px. rewrite user_matches_name in Px.
    repeat split; auto.
    + rewrite Hl, !map_app. reflexivity.
    + exists l1, x, data, l2. repeat split; auto.
      intros u Hu. specialize (Hl1 u Hu). unfold by_name in Hl1.
      now rewrite user_matches_name in Hl1.
  - rewrite modifyUser_absent in H; [discriminate|].
    intros x Hx. now apply (find_none _ _ Hf).
Qed.

Lemma modifyUser_rewrites_one_witness :
  let a := [("active", VBool false)] in
  let w' := snd (modifyUser "bob" a no_fault sample) in
  groups (db w') = groups (db sample)
  /\ pending w' = pending sample
  /\ map uid (users (db w')) = map uid (users (db sample))
  /\ exists before user data after,
       users (db sample) = before ++ user :: after
       /\ users (db w') = before ++ write_user data user :: after
       /\ user_named "bob" user = true
       /\ (forall u, In u before -> user_named "bob" u = false)
       /\ endpointMapper Outbound a config_map_user = Some data.
Proof.
  apply (modifyUser_rewrites_one "bob" [("active", VBool false)] no_fault
           sample).
  reflexivity.
Defined.

(* ================================================================= *)
(** ** What modifyGroup stores *)

Lemma without_absent (x : string) (l : list string) :
  ~ In x l -> without x l = l.
Proof.
  unfold without. induction l as [|y l IH]; simpl; intros H; auto.
  destruct (String.eqb y x) eqn:E.
  - apply String.eqb_eq in E. subst. exfalso. auto.
  - simpl. rewrite IH; auto.
Qed.

Lemma without_snoc (x : string) (l : list string) :
  without x (l ++ [x]) = without x l.
Proof.
  unfold without. rewrite filter_app. simpl. rewrite String.eqb_refl.
  simpl. apply app_nil_r.
Qed.

Lemma without_after_add (x : string) (l : list string) :
  without x (if includes l x then l else l ++ [x]) = without x l.
Proof. destruct (includes l x); auto using without_snoc. Qed.

Lemma current_delete (s : loop_state) (x : string) :
  current (edit s (Some "delete") x) = without x (selected_members s).
Proof. reflexivity. Qed.

Lemma resolve_all_none (st : store) (es : list member_edit) (m : member_edit) :
  In m es -> resolve st m = None -> resolve_all st es = None.
Proof.
  induction es as [|m' es IH]; simpl; intros Hin Hm; [contradiction|].
  destruct Hin as [->|Hin].
  - now rewrite Hm.
  - rewrite (IH Hin Hm). now destruct (resolve st m').
Qed.

Lemma resolve_all_users (st st' : store) (es : list member_edit) :
  users st' = users st -> resolve_all st' es = resolve_all st es.
Proof.
  intros H. induction es as [|m es IH]; simpl; auto.
  unfold resolve. now rewrite H, IH.
Qed.

(** What a call of modifyGroup does when the group is found, every edit
    resolves and the store accepts the update. *)
Lemma modifyGroup_runs (id : string) (a : group_attrObj) (e : env)
  (w : world) (g : group_row) (rs : list (option string * string)) :
  find (group_keyed id) (groups (db w)) = Some g ->
  resolve_all (db w) (edits_of a) = Some rs ->
  fault e = None ->
  let nm := current (run_loop (mkLoop (members g) SameArray) rs) in
  fst (modifyGroup id a e w) = Resolved tt
  /\ pending (snd (modifyGroup id a e w)) = pending w
  /\ users (db (snd (modifyGroup id a e w))) = users (db w)
  /\ group_members (db (snd (modifyGroup id a e w))) id = Some nm
  /\ exists before data after,
       groups (db w) = before ++ g :: after
       /\ groups (db (snd (modifyGroup id a e w)))
          = before ++ write_group data (Some nm) g :: after
       /\ forall g', In g' before -> group_keyed id g' = false.
Proof.
  intros Hf Hr He nm.
  destruct (mapper_group_total (attrs a)) as [data Hd].
  rewrite (modifyGroup_found id a e w g data rs Hf Hd Hr), He.
  fold nm.
  destruct (update_first_found' (group_matches (Some (by_key id)))
              (group_keyed id) (write_group (del data "id") (Some nm))
              (groups (db w)) g) as [gs Hgs]; auto.
  { intros y. apply group_matches_key. }
  assert (Hu : update_group (by_key id) (del data "id") (Some nm) (db w)
               = Some (mkStore (users (db w)) gs)).
  { unfold update_group. now rewrite Hgs. }
  rewrite Hu. cbn [fst snd with_db db pending after users groups].
  destruct (update_group_members _ _ _ _ _ Hu) as (_ & g0 & Hg0 & Hg0').
  rewrite Hf in Hg0. injection Hg0 as <-.
  repeat split; auto.
  - unfold group_members. cbn [groups] in *. now rewrite Hg0'.
  - apply update_first_split in Hgs as (l1 & x & l2 & Hl & -> & Px & Hl1).
    unfold by_key in Px, Hl1.
    assert (Hx : x = g).
    { rewrite Hl in Hf. clear - Hf Hl1 Px.
      induction l1 as [|y l1 IH]; simpl in Hf.
      - rewrite group_matches_key in Px. rewrite Px in Hf. congruence.
      - pose proof (Hl1 y (or_introl eq_refl)) as Hy.
        rewrite group_matches_key in Hy. rewrite Hy in Hf.
        apply IH; auto. intros z Hz. apply Hl1. now right. }
    subst x. exists l1, (del data "id"), l2. repeat split; auto.
    intros g' Hg'. rewrite <- group_matches_key. auto.
Qed.

(** The same, read from a call that resolved. *)
Lemma modifyGroup_effect (id : string) (a : group_attrObj) (e : env)
  (w : world) :
  fst (modifyGroup id a e w) = Resolved tt ->
  exists g rs,
    find (group_keyed id) (groups (db w)) = Some g
    /\ resolve_all (db w) (edits_of a) = Some rs
    /\ fault e = None.
Proof.
  intros H.
  destruct (modifyGroup_resolved _ _ _ _ H)
    as (g & data & rs & st & Hf & _ & Hr & He & _).
  now exists g, rs.
Qed.

(** X20: when one of the member edits names no user, modifyGroup fails
    with "User <id> not found", where <id> is the id of the group, and
    nothing is written, not even the edits before it. *)
Theorem modifyGroup_unresolved_member_writes_nothing (id : string)
  (a : group_attrObj) (e : env) (w : world) (m : member_edit) :
  group_present (db w) id ->
  In m (edits_of a) ->
  resolve (db w) m = None ->
  fst (modifyGroup id a e w) = Formatted "modifyGroup" (MemberNotFound id)
  /\ message (MemberNotFound id) = ("User " ++ id ++ " not found")%string
  /\ read_only w (modifyGroup id a e w).
Proof.
  intros Hp Hm Hr.
  destruct (find_present _ _ Hp) as (g & Hf & _).
  destruct (modifyGroup_unresolved id a e w g Hf
              (resolve_all_none _ _ _ Hm Hr)) as (l & -> & Hl).
  repeat split. now exists l.
Qed.

Lemma modifyGroup_unresolved_member_writes_nothing_witness :
  let a := mkAttrObj [] (Some [delete_edit "alice"; add_edit "carol"]) in
  fst (modifyGroup "g1" a no_fault sample)
  = Formatted "modifyGroup" (MemberNotFound "g1")
  /\ message (MemberNotFound "g1") = ("User " ++ "g1" ++ " not found")%string
  /\ read_only sample (modifyGroup "g1" a no_fault sample).
Proof.
  apply (modifyGroup_unresolved_member_writes_nothing "g1"
           (mkAttrObj [] (Some [delete_edit "alice"; add_edit "carol"]))
           no_fault sample (add_edit "carol")).
  - exists eng. split; [left|]; reflexivity.
  - right. left. reflexivity.
  - reflexivity.
Defined.

(** X18: a modifyGroup that resolves has stored the result of the member
    loop as the member list of the group of that key; users, pending
    updates, every key and the other groups are as before. *)
Theorem modifyGroup_stores_loop_result (id : string) (a : group_attrObj)
  (e : env) (w : world) :
  fst (modifyGroup id a e w) = Resolved tt ->
  let w' := snd (modifyGroup id a e w) in
  users (db w') = users (db w)
  /\ pending w' = pending w
  /\ map gid (groups (db w')) = map gid (groups (db w))
  /\ (forall g', In g' (groups (db w')) -> gid g' <> id ->
                 In g' (groups (db w)))
  /\ exists ms rs,
       group_members (db w) id = Some ms
       /\ resolve_all (db w) (edits_of a) = Some rs
       /\ group_members (db w') id
          = Some (current (run_loop (mkLoop ms SameArray) rs)).
Proof.
  intros H w'. subst w'.
  destruct (modifyGroup_effect _ _ _ _ H) as (g & rs & Hf & Hr & He).
  destruct (modifyGroup_runs id a e w g rs Hf Hr He)
    as (_ & Hp & Hu & Hm & l1 & data & l2 & Hl & Hl' & Hl1).
  repeat split; auto.
  - rewrite Hl, Hl', !map_app. reflexivity.
  - intros g' Hg' Hne. rewrite Hl' in Hg'. rewrite Hl.
    apply in_app_iff in Hg' as [Hg'|[<-|Hg']].
    + apply in_app_iff. auto.
    + apply find_some in Hf as [_ Hk]. apply String.eqb_eq in Hk.
      simpl in Hne. contradiction.
    + apply in_app_iff. simpl. auto.
  - exists (members g), rs. repeat split; auto.
    unfold group_members. now rewrite Hf.
Qed.

Lemma modifyGroup_stores_loop_result_witness :
  let a := mkAttrObj [("displayName", VStr "ops2")] (Some [add_edit "alice"]) in
  let w' := snd (modifyGroup "g2" a no_fault carol_gone) in
  users (db w') = users (db carol_gone)
  /\ pending w' = pending carol_gone
  /\ map gid (groups (db w')) = map gid (groups (db carol_gone))
  /\ (forall g', In g' (groups (db w')) -> gid g' <> "g2" ->
                 In g' (groups (db carol_gone)))
  /\ exists ms rs,
       group_members (db carol_gone) "g2" = Some ms
       /\ resolve_all (db carol_gone) (edits_of a) = Some rs
       /\ group_members (db w') "g2"
          = Some (current (run_loop (mkLoop ms SameArray) rs)).
Proof.
  apply (modifyGroup_stores_loop_result "g2"
           (mkAttrObj [("displayName", VStr "ops2")] (Some [add_edit "alice"]))
           no_fault carol_gone).
  reflexivity.
Defined.

(** X19: with [members] absent or empty, a modifyGroup that resolves
    leaves the member list of the group as it is. *)
Theorem modifyGroup_without_edits_keeps_members (id : string)
  (a : group_attrObj) (e : env) (w : world) :
  edits_of a = [] ->
  fst (modifyGroup id a e w) = Resolved tt ->
  group_members (db (snd (modifyGroup id a e w))) id
  = group_members (db w) id.
Proof.
  intros Ha H.
  destruct (modifyGroup_effect _ _ _ _ H) as (g & rs & Hf & Hr & He).
  destruct (modifyGroup_runs id a e w g rs Hf Hr He)
    as (_ & _ & _ & Hm & _).
  rewrite Hm. rewrite Ha in Hr. injection Hr as <-.
  unfold group_members. now rewrite Hf.
Qed.

Lemma modifyGroup_without_edits_keeps_members_witness :
  let a := mkAttrObj [("displayName", VStr "dev")] (Some []) in
  group_members (db (snd (modifyGroup "g1" a no_fault sample))) "g1"
  = group_members (db sample) "g1".
Proof.
  apply (modifyGroup_without_edits_keeps_members "g1"
           (mkAttrObj [("displayName", VStr "dev")] (Some [])) no_fault
           sample); reflexivity.
Defined.

(** X21: a modifyGroup with one delete edit takes the user's key out of
    the member list and keeps the other members in order; when the user
    is no member the list is unchanged. *)
Theorem modifyGroup_delete_removes (id u : string) (sc : obj) (e : env)
  (w : world) (ms : list string) :
  let a := mkAttrObj sc (Some [delete_edit u]) in
  fst (modifyGroup id a e w) = Resolved tt ->
  group_members (db w) id = Some ms ->
  exists user,
    resolve (db w) (delete_edit u) = Some user
    /\ group_members (db (snd (modifyGroup id a e w))) id
       = Some (without (uid user) ms)
    /\ (~ In (uid user) ms ->
        group_members (db (snd (modifyGroup id a e w))) id = Some ms).
Proof.
  intros a H Hms.
  destruct (modifyGroup_effect _ _ _ _ H) as (g & rs & Hf & Hr & He).
  destruct (modifyGroup_runs id a e w g rs Hf Hr He)
    as (_ & _ & _ & Hm & _).
  unfold group_members in Hms. rewrite Hf in Hms. injection Hms as <-.
  cbn [a edits_of amembers resolve_all] in Hr.
  destruct (resolve (db w) (delete_edit u)) as [user|]; try discriminate.
  injection Hr as <-. exists user. rewrite Hm.
  cbn [run_loop fold_left fst snd operation delete_edit].
  rewrite current_delete. cbn [selected_members]. repeat split.
  intros Hn. now rewrite without_absent.
Qed.

Lemma modifyGroup_delete_removes_witness :
  let a := mkAttrObj [] (Some [delete_edit "alice"]) in
  exists user,
    resolve (db carol_gone) (delete_edit "alice") = Some user
    /\ group_members (db (snd (modifyGroup "g2" a no_fault carol_gone))) "g2"
       = Some (without (uid user) ["u2"; "u9"])
    /\ (~ In (uid user) ["u2"; "u9"] ->
        group_members (db (snd (modifyGroup "g2" a no_fault carol_gone))) "g2"
        = Some ["u2"; "u9"]).
Proof.
  apply (modifyGroup_delete_removes "g2" "alice" [] no_fault carol_gone
           ["u2"; "u9"]); reflexivity.
Defined.

(** X22: adding a user with one modifyGroup and deleting it with a second
    leaves the member list without the user's key, which is the list as
    it was when the user was no member before. *)
Theorem modifyGroup_add_then_delete (id u : string) (sc sc' : obj)
  (e1 e2 : env) (w : world) (ms : list string) :
  let add := mkAttrObj sc (Some [add_edit u]) in
  let del := mkAttrObj sc' (Some [delete_edit u]) in
  fst (modifyGroup id add e1 w) = Resolved tt ->
  fault e2 = None ->
  group_members (db w) id = Some ms ->
  let w1 := snd (modifyGroup id add e1 w) in
  exists user,
    resolve (db w) (add_edit u) = Some user
    /\ fst (modifyGroup id del e2 w1) = Resolved tt
    /\ group_members (db (snd (modifyGroup id del e2 w1))) id
       = Some (without (uid user) ms)
    /\ (~ In (uid user) ms ->
        group_members (db (snd (modifyGroup id del e2 w1))) id = Some ms).
Proof.
  intros add del H He2 Hms w1.
  destruct (modifyGroup_effect _ _ _ _ H) as (g & rs & Hf & Hr & He1).
  destruct (modifyGroup_runs id add e1 w g rs Hf Hr He1)
    as (_ & _ & Hu & Hm & _).
  fold w1 in Hu, Hm. clearbody w1.
  unfold group_members in Hms. rewrite Hf in Hms. injection Hms as <-.
  cbn [add edits_of amembers resolve_all] in Hr.
  destruct (resolve (db w) (add_edit u)) as [user|] eqn:Hus;
    try discriminate.
  injection Hr as <-. exists user. split; auto.
  cbn [run_loop fold_left fst snd] in Hm. rewrite current_add in Hm.
  unfold group_members in Hm.
  destruct (find (group_keyed id) (groups (db w1))) as [g1|] eqn:Hf1;
    try discriminate.
  injection Hm as Hm.
  assert (Hr1 : resolve_all (db w1) (edits_of del)
                = Some [(Some "delete", uid user)]).
  { rewrite (resolve_all_users (db w) (db w1) _ Hu).
    cbn [del edits_of amembers resolve_all].
    change (resolve (db w) (delete_edit u))
      with (resolve (db w) (add_edit u)).
    now rewrite Hus. }
  destruct (modifyGroup_runs id del e2 w1 g1 _ Hf1 Hr1 He2)
    as (Hok & _ & _ & Hm1 & _).
  split; auto. rewrite Hm1.
  cbn [run_loop fold_left fst snd]. rewrite current_delete.
  cbn [selected_members]. rewrite Hm, without_after_add. split; auto.
  intros Hn. now rewrite without_absent.
Qed.

Lemma modifyGroup_add_then_delete_witness :
  let add := mkAttrObj [] (Some [add_edit "alice"]) in
  let del := mkAttrObj [] (Some [delete_edit "alice"]) in
  let w1 := snd (modifyGroup "g2" add no_fault carol_gone) in
  exists user,
    resolve (db carol_gone) (add_edit "alice") = Some user
    /\ fst (modifyGroup "g2" del no_fault w1) = Resolved tt
    /\ group_members (db (snd (modifyGroup "g2" del no_fault w1))) "g2"
       = Some (without (uid user) ["u2"; "u9"])
    /\ (~ In (uid user) ["u2"; "u9"] ->
        group_members (db (snd (modifyGroup "g2" del no_fault w1))) "g2"
        = Some ["u2"; "u9"]).
Proof.
  apply (modifyGroup_add_then_delete "g2" "alice" [] [] no_fault no_fault
           carol_gone ["u2"; "u9"]); reflexivity.
Defined.

Lemma edit_add_extends (s : loop_state) (op : option string) (x : string) :
  is_str op "delete" = false ->
  exists extra, current (edit s op x) = current s ++ extra.
Proof.
  intros H. unfold edit. rewrite H.
  destruct (negb (includes (current s) x)).
  - exists [x]. apply current_push.
  - exists []. now rewrite app_nil_r.
Qed.

Lemma run_loop_adds_extend (rs : list (option string * string))
  (s : loop_state) :
  deletes rs = 0 ->
  exists extra, current (run_loop s rs) = current s ++ extra.
Proof.
  unfold deletes. revert s.
  induction rs as [|r rs IH]; intros s H; simpl in *.
  - exists []. now rewrite app_nil_r.
  - destruct (is_str (fst r) "delete") eqn:E; simpl in H; try discriminate.
    destruct (IH (edit s (fst r) (snd r)) H) as [x1 H1].
    destruct (edit_add_extends s (fst r) (snd r) E) as [x0 H0].
    exists (x0 ++ x1). unfold run_loop in *. simpl.
    now rewrite H1, H0, app_assoc.
Qed.

(** X23: when none of the edits is a delete, a modifyGroup that resolves
    keeps every member in place and only appends. *)
Theorem modifyGroup_adds_only_append (id : string) (a : group_attrObj)
  (e : env) (w : world) (ms : list string)
  (rs : list (option string * string)) :
  fst (modifyGroup id a e w) = Resolved tt ->
  group_members (db w) id = Some ms ->
  resolve_all (db w) (edits_of a) = Some rs ->
  deletes rs = 0 ->
  exists extra,
    group_members (db (snd (modifyGroup id a e w))) id = Some (ms ++ extra).
Proof.
  intros H Hms Hrs Hd.
  destruct (modifyGroup_effect _ _ _ _ H) as (g & rs' & Hf & Hr & He).
  destruct (modifyGroup_runs id a e w g rs' Hf Hr He)
    as (_ & _ & _ & Hm & _).
  rewrite Hrs in Hr. injection Hr as <-.
  unfold group_members in Hms. rewrite Hf in Hms. injection Hms as <-.
  destruct (run_loop_adds_extend rs (mkLoop (members g) SameArray) Hd)
    as [extra Hx].
  exists extra. now rewrite Hm, Hx.
Qed.

Lemma modifyGroup_adds_only_append_witness :
  let a := mkAttrObj [] (Some [add_edit "alice"; add_edit "bob"]) in
  exists extra,
    group_members (db (snd (modifyGroup "g2" a no_fault carol_gone))) "g2"
    = Some (["u2"; "u9"] ++ extra).
Proof.
  apply (modifyGroup_adds_only_append "g2"
           (mkAttrObj [] (Some [add_edit "alice"; add_edit "bob"]))
           no_fault carol_gone ["u2"; "u9"]
           [(Some "add", "u1"); (Some "add", "u2")]); reflexivity.
Defined.

Lemma edit_own_keeps_selected (s : loop_state) (op : option string)
  (x : string) (l : list string) :
  newMembers s = OwnArray l ->
  selected_members (edit s op x) = selected_members s
  /\ exists l', newMembers (edit s op x) = OwnArray l'.
Proof.
  intros Hs. unfold edit, push.
  destruct (is_str op "delete"); simpl; eauto.
  destruct (negb (includes (current s) x)); rewrite ?Hs; simpl; eauto.
Qed.

Lemma run_loop_own_keeps_selected (rs : list (option string * string))
  (s : loop_state) (l : list string) :
  newMembers s = OwnArray l ->
  selected_members (run_loop s rs) = selected_members s.
Proof.
  revert s l. induction rs as [|r rs IH]; intros s l Hs; simpl; auto.
  destruct (edit_own_keeps_selected s (fst r) (snd r) l Hs) as [Hsel [l' Hl']].
  unfold run_loop in *. simpl. rewrite (IH _ l' Hl'). exact Hsel.
Qed.

(** X25: when the first and the last edit are deletes, the member loop
    returns the stored member list without the last deleted key: the
    edits before the last one are discarded. *)
Theorem applyMembershipEdits_last_delete_wins (id : string) (g : group_row)
  (a : group_attrObj) (w : world) (x y : string)
  (mid : list (option string * string)) :
  resolve_all (db w) (edits_of a)
  = Some ((Some "delete", x) :: mid ++ [(Some "delete", y)]) ->
  fst (applyMembershipEdits id g a w) = inr (without y (members g)).
Proof.
  intros Hr. rewrite (applyMembershipEdits_resolved _ _ _ _ _ Hr).
  cbn [fst]. unfold run_loop. cbn [fold_left fst snd].
  rewrite fold_left_app. cbn [fold_left fst snd].
  rewrite current_delete. f_equal.
  fold (run_loop (edit (mkLoop (members g) SameArray) (Some "delete") x) mid).
  now rewrite (run_loop_own_keeps_selected mid _ (without x (members g))).
Qed.

Lemma applyMembershipEdits_last_delete_wins_witness :
  fst (applyMembershipEdits "g1" eng three_edits sample)
  = inr (without "u1" (members eng)).
Proof.
  apply (applyMembershipEdits_last_delete_wins "g1" eng three_edits sample
           "u2" "u1" [(Some "add", "u1")]).
  reflexivity.
Defined.

(* ================================================================= *)
(** ** The prune of deleteUser, landed *)

Lemma strip_same (k : string) (g : group_row) :
  ~ In k (members g) -> strip k g = g.
Proof.
  intros H. unfold strip. rewrite without_absent by assumption.
  now destruct g.
Qed.

Lemma update_first_keyed (f : group_row -> group_row) (l : list group_row)
  (g0 : group_row) :
  NoDup (map gid l) -> In g0 l ->
  update_first (group_matches (Some (WFields [("id", VStr (gid g0))]))) f l
  = Some (map (fun g => if String.eqb (gid g) (gid g0) then f g else g) l).
Proof.
  induction l as [|x l IH]; cbn [update_first map In]; intros Hnd Hin;
    [contradiction|].
  inversion Hnd as [|? ? Hx Hl]; subst.
  rewrite group_matches_id. unfold group_keyed.
  destruct (String.eqb (gid x) (gid g0)) eqn:E.
  - f_equal. f_equal. apply String.eqb_eq in E.
    rewrite <- (map_id l) at 1. apply map_ext_in. intros y Hy.
    destruct (String.eqb (gid y) (gid g0)) eqn:Ey; auto.
    apply String.eqb_eq in Ey. exfalso. apply Hx.
    rewrite E, <- Ey. now apply in_map.
  - destruct Hin as [->|Hin]; [now rewrite String.eqb_refl in E|].
    now rewrite (IH Hl Hin).
Qed.

Lemma keyed_unique (l : list group_row) (g g0 : group_row) :
  NoDup (map gid l) -> In g l -> In g0 l -> gid g = gid g0 -> g = g0.
Proof.
  intros Hl Hg H0 E. induction l as [|x l IHl]; [contradiction|].
  inversion Hl as [|? ? Hx Hl']; subst.
  destruct Hg as [->|Hg], H0 as [->|H0]; auto.
  - exfalso. apply Hx. rewrite E. now apply in_map.
  - exfalso. apply Hx. rewrite <- E. now apply in_map.
Qed.

Lemma includes_cons (x y : string) (l : list string) :
  includes (x :: l) y = String.eqb y x || includes l y.
Proof. reflexivity. Qed.

Lemma land_prune_update (user : user_row) (us : list user_row)
  (l : list group_row) (g0 : group_row) :
  NoDup (map gid l) -> In g0 l ->
  land (mkStore us l) (prune_update user g0)
  = mkStore us
      (map (fun g => if String.eqb (gid g) (gid g0)
                     then strip (uid user) g0 else g) l).
Proof.
  intros Hl Hin. unfold land, update_group.
  cbn [upd_where upd_members prune_update groups users].
  rewrite (update_first_keyed _ l g0 Hl Hin). cbn [option_map].
  f_equal. apply map_ext_in. intros g Hg.
  destruct (String.eqb (gid g) (gid g0)) eqn:E; auto.
  apply String.eqb_eq in E.
  now rewrite (keyed_unique l g g0 Hl Hg Hin E).
Qed.

Lemma land_all_strips (k : string) (user : user_row) (us : list user_row)
  (gs l : list group_row) :
  uid user = k ->
  NoDup (map gid l) -> NoDup (map gid gs) -> incl gs l ->
  groups (land_all (map (prune_update user) gs) (mkStore us l))
  = map (fun g => if includes (map gid gs) (gid g) then strip k g else g) l.
Proof.
  intros <-. revert l. induction gs as [|g0 gs IH]; intros l Hl Hgs Hin.
  - simpl. now rewrite map_id.
  - inversion Hgs as [|? ? Hg0 Hgs']; subst.
    unfold land_all. cbn [map fold_left].
    rewrite (land_prune_update user us l g0 Hl) by (apply Hin; now left).
    set (l1 := map (fun g => if String.eqb (gid g) (gid g0)
                             then strip (uid user) g0 else g) l).
    fold (land_all (map (prune_update user) gs) (mkStore us l1)).
    assert (Hgid : map gid l1 = map gid l).
    { subst l1. rewrite map_map. apply map_ext. intros g.
      destruct (String.eqb (gid g) (gid g0)) eqn:E; auto.
      apply String.eqb_eq in E. now rewrite E. }
    rewrite IH.
    + subst l1. rewrite map_map. apply map_ext_in. intros g Hg.
      cbn [map]. rewrite includes_cons.
      destruct (String.eqb (gid g) (gid g0)) eqn:E; [|reflexivity].
      apply String.eqb_eq in E.
      assert (g = g0)
        by (apply (keyed_unique l); auto; apply Hin; now left).
      subst g. cbn [gid strip orb].
      destruct (includes (map gid gs) (gid g0)) eqn:Ein; auto.
      apply includes_In in Ein. contradiction.
    + now rewrite Hgid.
    + assumption.
    + intros g Hg. assert (Hgl : In g l) by (apply Hin; now right).
      subst l1. apply in_map_iff. exists g. split; auto.
      destruct (String.eqb (gid g) (gid g0)) eqn:E; auto.
      apply String.eqb_eq in E. exfalso. apply Hg0. rewrite <- E.
      now apply in_map.
Qed.

Lemma listing_keys_nodup (k : string) (l : list group_row) :
  NoDup (map gid l) -> NoDup (map gid (filter (lists k) l)).
Proof.
  induction l as [|x l IH]; simpl; intros H; auto.
  inversion H as [|? ? Hx Hl]; subst.
  destruct (lists k x); simpl; auto.
  constructor; auto. intros Hin. apply Hx.
  apply in_map_iff in Hin as (y & <- & Hy).
  apply filter_In in Hy as [Hy _]. now apply in_map.
Qed.

Lemma land_all_users (ps : list pending_update) (st : store) :
  users (land_all ps st) = users st.
Proof.
  unfold land_all. revert st.
  induction ps as [|p ps IH]; intros st; simpl; auto.
  rewrite IH. unfold land, update_group.
  now destruct (update_first _ _ (groups st)).
Qed.

(** The groups once every prune of deleteUser has landed. *)
Lemma pruned_groups (k : string) (user : user_row) (us : list user_row)
  (l : list group_row) :
  uid user = k ->
  NoDup (map gid l) ->
  groups (land_all
            (map (prune_update user)
                 (filter (group_matches (Some (WMembersHas (VStr k)))) l))
            (mkStore us l))
  = map (strip k) l.
Proof.
  intros Hk Hl.
  rewrite (filter_ext _ (lists k)) by (intros; apply has_lists).
  rewrite (land_all_strips k user us _ l Hk Hl (listing_keys_nodup k l Hl)).
  - apply map_ext_in. intros g Hg.
    destruct (includes (map gid (filter (lists k) l)) (gid g)) eqn:E; auto.
    symmetry. apply strip_same. intros Hin.
    assert (Hc : includes (map gid (filter (lists k) l)) (gid g) = true).
    { apply includes_In, in_map, filter_In. split; auto.
      unfold lists. now apply includes_In. }
    congruence.
  - intros g Hg. now apply filter_In in Hg.
Qed.

(** X16: group keys being unique, the awaited calls of a resolved
    deleteUser leave the groups as they are and remove the user; once
    the prunes have landed, every group is as before but for the user's
    key, which is taken out of its member list. *)
Theorem deleteUser_strips_key (id : string) (e : env) (w : world)
  (user : user_row) :
  NoDup (map gid (groups (db w))) ->
  pending w = [] ->
  find (user_named id) (users (db w)) = Some user ->
  fst (deleteUser id e w) = Resolved tt ->
  let w' := snd (deleteUser id e w) in
  groups (db w') = groups (db w)
  /\ groups (land_all (pending w') (db w'))
     = map (strip (uid user)) (groups (db w))
  /\ exists before after,
       users (db w) = before ++ user :: after
       /\ users (land_all (pending w') (db w')) = before ++ after.
Proof.
  intros Hnd Hp Hf H w'. subst w'.
  rewrite (deleteUser_found _ _ _ _ Hf) in *.
  destruct (fault e); try discriminate.
  destruct (delete_first _ _) as [us|] eqn:Hd; try discriminate.
  cbn [snd with_db db pending groups]. rewrite Hp. cbn [app].
  split; auto. split.
  - now apply pruned_groups.
  - apply delete_first_split in Hd as (l1 & x & l2 & Hl & -> & Px & Hl1).
    unfold by_name in Px, Hl1.
    assert (Hx : x = user).
    { rewrite Hl in Hf. clear - Hf Hl1 Px.
      induction l1 as [|y l1 IH]; simpl in Hf.
      - rewrite user_matches_name in Px. rewrite Px in Hf. congruence.
      - pose proof (Hl1 y (or_introl eq_refl)) as Hy.
        rewrite user_matches_name in Hy. rewrite Hy in Hf.
        apply IH; auto. intros z Hz. apply Hl1. now right. }
    subst x. exists l1, l2. split; auto. apply land_all_users.
Qed.

Lemma deleteUser_strips_key_witness :
  let w' := snd (deleteUser "alice" no_fault sample) in
  groups (db w') = groups (db sample)
  /\ groups (land_all (pending w') (db w'))
     = map (strip (uid alice)) (groups (db sample))
  /\ exists before after,
       users (db sample) = before ++ alice :: after
       /\ users (land_all (pending w') (db w')) = before ++ after.
Proof.
  apply (deleteUser_strips_key "alice" no_fault sample alice).
  - repeat constructor. simpl. intuition.
  - reflexivity.
  - reflexivity.
  - reflexivity.
Defined.

(* ================================================================= *)
(** ** Deleting *)

(** X17: when the store rejects the delete call of deleteUser, the
    prunes have been started all the same: the operation fails (not
    found for code P2025, the store's message otherwise), the user is
    still stored, and once the prunes land it is in no group's list. *)
Theorem deleteUser_rejected_after_prune (id : string) (e : env) (w : world)
  (user : user_row) (err : store_error) :
  NoDup (map gid (groups (db w))) ->
  pending w = [] ->
  find (user_named id) (users (db w)) = Some user ->
  fault e = Some err ->
  let w' := snd (deleteUser id e w) in
  fst (deleteUser id e w)
  = Formatted "deleteUser"
      (if String.eqb (code err) "P2025" then NotFound "User" id
       else StoreFault (emessage err))
  /\ db w' = db w
  /\ pending w'
     = map (prune_update user) (filter (lists (uid user)) (groups (db w)))
  /\ users (land_all (pending w') (db w')) = users (db w)
  /\ groups (land_all (pending w') (db w'))
     = map (strip (uid user)) (groups (db w)).
Proof.
  intros Hnd Hp Hf He w'. subst w'.
  rewrite (deleteUser_found _ _ _ _ Hf), He.
  cbn [fst snd db pending]. rewrite Hp. cbn [app].
  split; [reflexivity|]. split; [reflexivity|]. split; [|split].
  - now rewrite (filter_ext _ (lists (uid user)))
      by (intros; apply has_lists).
  - apply land_all_users.
  - destruct (db w) as [us gs] eqn:Hdb. cbn [groups] in *.
    now apply pruned_groups.
Qed.

Lemma deleteUser_rejected_after_prune_witness :
  let e := rejected "P1001" in
  let w' := snd (deleteUser "alice" e sample) in
  fst (deleteUser "alice" e sample)
  = Formatted "deleteUser" (StoreFault "connection lost")
  /\ db w' = db sample
  /\ pending w'
     = map (prune_update alice)
           (filter (lists (uid alice)) (groups (db sample)))
  /\ users (land_all (pending w') (db w')) = users (db sample)
  /\ groups (land_all (pending w') (db w'))
     = map (strip (uid alice)) (groups (db sample)).
Proof.
  apply (deleteUser_rejected_after_prune "alice" (rejected "P1001") sample
           alice (mkStoreError "P1001" "{}" "connection lost")).
  - repeat constructor. simpl. intuition.
  - reflexivity.
  - reflexivity.
  - reflexivity.
Defined.

(** X13: group keys being unique, a deleteGroup that resolves has
    removed the group of that key and no other, touches neither users
    nor pending updates, and a second deleteGroup of the key ends in the
    not-found error. *)
Theorem deleteGroup_removes_group (id : string) (e e' : env) (w : world) :
  NoDup (map gid (groups (db w))) ->
  fst (deleteGroup id e w) = Resolved tt ->
  let w' := snd (deleteGroup id e w) in
  users (db w') = users (db w)
  /\ pending w' = pending w
  /\ (forall g, In g (groups (db w')) <->
                In g (groups (db w)) /\ gid g <> id)
  /\ fst (deleteGroup id e' w') = Formatted "deleteGroup" (NotFound "Group" id).
Proof.
  intros Hnd H w'. subst w'.
  destruct (find (group_keyed id) (groups (db w))) as [g0|] eqn:Hf.
  - rewrite (deleteGroup_found _ _ _ _ Hf) in *.
    destruct (fault e); try discriminate.
    destruct (delete_first _ _) as [gs|] eqn:Hd; try discriminate.
    cbn [snd with_db db pending after users groups].
    apply delete_first_split in Hd as (l1 & x & l2 & Hl & -> & Px & Hl1).
    unfold by_key in Px, Hl1. rewrite group_matches_key in Px.
    apply String.eqb_eq in Px.
    assert (Hiff : forall g, In g (l1 ++ l2) <->
                             In g (groups (db w)) /\ gid g <> id).
    { intros g. rewrite Hl in *. rewrite !in_app_iff. simpl. split.
      - intros Hg. split; [tauto|]. intros E.
        rewrite map_app in Hnd. simpl in Hnd.
        destruct Hg as [Hg|Hg].
        + specialize (Hl1 g Hg). rewrite group_matches_key in Hl1.
          apply String.eqb_neq in Hl1. contradiction.
        + apply NoDup_remove_2 in Hnd. apply Hnd. apply in_app_iff. right.
          rewrite Px, <- E. now apply in_map.
      - intros [[Hg|[<-|Hg]] Hne]; auto. contradiction. }
    repeat split; try apply Hiff; auto.
    rewrite deleteGroup_absent; auto.
    intros g Hg. cbn [db groups] in Hg. apply Hiff in Hg as [_ Hne].
    now apply String.eqb_neq.
  - rewrite deleteGroup_absent in H; [discriminate|].
    intros x Hx. now apply (find_none _ _ Hf).
Qed.

Lemma deleteGroup_removes_group_witness :
  let w' := snd (deleteGroup "g1" no_fault sample) in
  users (db w') = users (db sample)
  /\ pending w' = pending sample
  /\ (forall g, In g (groups (db w')) <->
                In g (groups (db sample)) /\ gid g <> "g1")
  /\ fst (deleteGroup "g1" no_fault w')
     = Formatted "deleteGroup" (NotFound "Group" "g1").
Proof.
  apply (deleteGroup_removes_group "g1" no_fault no_fault sample).
  - repeat constructor. simpl. intuition.
  - reflexivity.
Defined.

(** X14: user names being unique, a deleteUser that resolves has removed
    the user of that name and no other, and a later deleteUser or
    modifyUser of the name ends in the not-found error. *)
Theorem deleteUser_removes_user (id : string) (e e' : env) (a : obj)
  (w : world) :
  NoDup (map user_name (users (db w))) ->
  fst (deleteUser id e w) = Resolved tt ->
  let w' := snd (deleteUser id e w) in
  (forall u, In u (users (db w')) <->
             In u (users (db w)) /\ user_name u <> VStr id)
  /\ fst (deleteUser id e' w') = Formatted "deleteUser" (NotFound "User" id)
  /\ fst (modifyUser id a e' w') = Formatted "modifyUser" (NotFound "User" id).
Proof.
  intros Hnd H w'. subst w'.
  destruct (find (user_named id) (users (db w))) as [u0|] eqn:Hf.
  - rewrite (deleteUser_found _ _ _ _ Hf) in *.
    destruct (fault e); try discriminate.
    destruct (delete_first _ _) as [us|] eqn:Hd; try discriminate.
    cbn [snd with_db db pending users groups].
    apply delete_first_split in Hd as (l1 & x & l2 & Hl & -> & Px & Hl1).
    unfold by_name in Px, Hl1. rewrite user_matches_name in Px.
    apply user_named_name in Px.
    assert (Hiff : forall u, In u (l1 ++ l2) <->
                             In u (users (db w)) /\ user_name u <> VStr id).
    { intros u. rewrite Hl in *. rewrite !in_app_iff. simpl. split.
      - intros Hu. split; [tauto|]. intros E.
        rewrite map_app in Hnd. simpl in Hnd.
        destruct Hu as [Hu|Hu].
        + specialize (Hl1 u Hu). rewrite user_matches_name in Hl1.
          apply user_named_name in E. congruence.
        + apply NoDup_remove_2 in Hnd. apply Hnd. apply in_app_iff. right.
          rewrite Px, <- E. now apply in_map.
      - intros [[Hu|[<-|Hu]] Hne]; auto. contradiction. }
    assert (Habs : forall wd, db wd = mkStore (l1 ++ l2) (groups (db w)) ->
                              user_absent (db wd) id).
    { intros wd Hwd u Hu. rewrite Hwd in Hu. cbn [users] in Hu.
      apply Hiff in Hu as [_ Hne].
      destruct (user_named id u) eqn:E; auto.
      apply user_named_name in E. contradiction. }
    split; [exact Hiff|].
    split; [rewrite deleteUser_absent|rewrite modifyUser_absent]; auto.
  - rewrite deleteUser_absent in H; [discriminate|].
    intros x Hx. now apply (find_none _ _ Hf).
Qed.

Lemma deleteUser_removes_user_witness :
  let w' := snd (deleteUser "alice" no_fault sample) in
  (forall u, In u (users (db w')) <->
             In u (users (db sample)) /\ user_name u <> VStr "alice")
  /\ fst (deleteUser "alice" no_fault w')
     = Formatted "deleteUser" (NotFound "User" "alice")
  /\ fst (modifyUser "alice" [] no_fault w')
     = Formatted "modifyUser" (NotFound "User" "alice").
Proof.
  apply (deleteUser_removes_user "alice" no_fault no_fault [] sample).
  - repeat constructor; simpl; intuition discriminate.
  - reflexivity.
Defined.

(* ================================================================= *)
(** ** Listings and rejected updates *)

Lemma getUsers_filter_outcome (g : getObj) :
  (exists f, getUsers_filter g = inr (Some f))
  \/ (exists text, getUsers_filter g = inl (UnsupportedFilter text)).
Proof.
  unfold getUsers_filter.
  destruct (truthy (operator g)).
  - destruct (is_str (operator g) "eq"
              && includes_opt ["id"; "userName"; "externalId"] (attribute g)).
    + rewrite user_where. eauto.
    + destruct (is_str (operator g) "eq" && is_str (attribute g) "group.value");
        eauto.
  - destruct (truthy (rawFilter g)); eauto.
Qed.

(** X3: the if-else logic of getUsers never leaves [filter] undefined,
    so the guard that follows it never throws. *)
Theorem getUsers_guard_never_fires (g : getObj) (w : world) (msg : string) :
  getUsers_filter g <> inr None
  /\ fst (getUsers g w) <> Thrown (LogicError msg).
Proof.
  destruct (getUsers_filter_outcome g) as [[f Hf]|[text Hf]].
  - split; [congruence|].
    rewrite (getUsers_resolves g f w Hf). discriminate.
  - split; [congruence|]. unfold getUsers. rewrite Hf. discriminate.
Qed.

Lemma getGroups_filter_unsupported (g : getObj) :
  supported group_names g = false -> getGroups_filter g = inr None.
Proof.
  unfold supported, group_names, getGroups_filter. intros ->.
  destruct (truthy (operator g)).
  - now destruct (is_str (operator g) "eq"
                  && is_str (attribute g) "members.value").
  - now destruct (truthy (rawFilter g)).
Qed.

(** X7: any getObj that is not an equality on id, displayName or
    externalId leaves the filter of getGroups undefined: the call answers
    as the unfiltered listing does, with every group. *)
Theorem getGroups_ignores_other_filters (g : getObj) (w : world) :
  supported group_names g = false ->
  getGroups g w = getGroups no_filter w
  /\ fst (getGroups g w)
     = Resolved (map (group_resource_of (db w)) (groups (db w))).
Proof.
  intros H. apply getGroups_filter_unsupported in H.
  rewrite (getGroups_resolves g None w H).
  rewrite (getGroups_resolves no_filter None w eq_refl).
  split; auto. cbn [fst option_map group_matches].
  now rewrite filter_all.
Qed.

Lemma getGroups_ignores_other_filters_witness :
  let g := mkGetObj (Some "displayName") (Some "co") (VStr "en")
                    (Some "displayName co en") in
  getGroups g sample = getGroups no_filter sample
  /\ fst (getGroups g sample)
     = Resolved (map (group_resource_of (db sample)) (groups (db sample))).
Proof.
  apply (getGroups_ignores_other_filters
           (mkGetObj (Some "displayName") (Some "co") (VStr "en")
                     (Some "displayName co en")) sample).
  reflexivity.
Defined.

Lemma Forall2_map_right {A B : Type} (R : A -> B -> Prop) (f : A -> B)
  (l : list A) :
  (forall x, R x (f x)) -> Forall2 R l (map f l).
Proof. intros H. induction l; simpl; constructor; auto. Qed.

(** X2: without an operator and a raw filter, getUsers returns one
    resource per stored user and getGroups one per stored group, in the
    order of the store; a user's [userName] and [id] are its stored name,
    a group's [id] is its key and its [displayName] its stored name. *)
Theorem listing_is_complete (g : getObj) (w : world) :
  unfiltered g = true ->
  (exists rs,
      fst (getUsers g w) = Resolved rs
      /\ Forall2 (fun u r =>
                    get (user_attrs r) "userName" = user_name u
                    /\ get (user_attrs r) "id" = user_name u)
                 (users (db w)) rs)
  /\ (exists rs,
         fst (getGroups g w) = Resolved rs
         /\ Forall2 (fun grp r =>
                       get (group_attrs r) "id" = VStr (gid grp)
                       /\ get (group_attrs r) "displayName"
                          = get (group_doc grp) "name")
                    (groups (db w)) rs).
Proof.
  unfold unfiltered. intros H. apply andb_prop in H as [Ho Hr].
  apply negb_true_iff in Ho, Hr.
  assert (Fu : getUsers_filter g = inr (Some [])).
  { unfold getUsers_filter. now rewrite Ho, Hr. }
  assert (Fg : getGroups_filter g = inr None).
  { unfold getGroups_filter. now rewrite Ho, Hr. }
  split; eexists.
  - rewrite (getUsers_resolves g [] w Fu). split; [reflexivity|].
    cbn [user_matches fields_match forallb]. rewrite filter_all.
    apply Forall2_map_right. intros u. split.
    + apply user_resource_userName.
    + apply user_resource_id.
  - rewrite (getGroups_resolves g None w Fg). split; [reflexivity|].
    cbn [option_map group_matches]. rewrite filter_all.
    apply Forall2_map_right. intros grp. split.
    + apply group_resource_id.
    + apply group_resource_displayName.
Qed.

Lemma listing_is_complete_witness :
  (exists rs,
      fst (getUsers no_filter sample) = Resolved rs
      /\ Forall2 (fun u r =>
                    get (user_attrs r) "userName" = user_name u
                    /\ get (user_attrs r) "id" = user_name u)
                 (users (db sample)) rs)
  /\ (exists rs,
         fst (getGroups no_filter sample) = Resolved rs
         /\ Forall2 (fun grp r =>
                       get (group_attrs r) "id" = VStr (gid grp)
                       /\ get (group_attrs r) "displayName"
                          = get (group_doc grp) "name")
                    (groups (db sample)) rs).
Proof.
  apply (listing_is_complete no_filter sample). reflexivity.
Defined.

(** X12: when the store rejects the update call, modifyUser and
    modifyGroup fail with the store's message and no document has
    changed (the member edits are not stored either). *)
Theorem update_rejection_passes_message (uname gname : string) (a : obj)
  (ga : group_attrObj) (e : env) (w : world) (err : store_error)
  (rs : list (option string * string)) :
  user_present (db w) uname ->
  group_present (db w) gname ->
  resolve_all (db w) (edits_of ga) = Some rs ->
  fault e = Some err ->
  (fst (modifyUser uname a e w)
   = Formatted "modifyUser" (StoreFault (emessage err))
   /\ db (snd (modifyUser uname a e w)) = db w)
  /\ (fst (modifyGroup gname ga e w)
      = Formatted "modifyGroup" (StoreFault (emessage err))
      /\ db (snd (modifyGroup gname ga e w)) = db w).
Proof.
  intros Hu Hg Hr He.
  destruct (find_present _ _ Hu) as (user & Hfu & _).
  destruct (find_present _ _ Hg) as (grp & Hfg & _).
  destruct (mapper_user_total a) as [du Hdu].
  destruct (mapper_group_total (attrs ga)) as [dg Hdg].
  rewrite (modifyUser_found _ _ _ _ _ _ Hfu Hdu), He.
  rewrite (modifyGroup_found gname ga e w grp dg rs Hfg Hdg Hr), He.
  repeat split.
Qed.

Lemma update_rejection_passes_message_witness :
  let e := mkEnv "" (Some (mkStoreError "P1001" "{}" "connection lost")) in
  let ga := mkAttrObj [] (Some [delete_edit "bob"]) in
  (fst (modifyUser "alice" [("active", VBool false)] e sample)
   = Formatted "modifyUser" (StoreFault "connection lost")
   /\ db (snd (modifyUser "alice" [("active", VBool false)] e sample))
      = db sample)
  /\ (fst (modifyGroup "g1" ga e sample)
      = Formatted "modifyGroup" (StoreFault "connection lost")
      /\ db (snd (modifyGroup "g1" ga e sample)) = db sample).
Proof.
  apply (update_rejection_passes_message "alice" "g1"
           [("active", VBool false)]
           (mkAttrObj [] (Some [delete_edit "bob"]))
           (mkEnv "" (Some (mkStoreError "P1001" "{}" "connection lost")))
           sample (mkStoreError "P1001" "{}" "connection lost")
           [(Some "delete", "u2")]).
  - exists alice. split; [left|]; reflexivity.
  - exists eng. split; [left|]; reflexivity.
  - reflexivity.
  - reflexivity.
Defined.
